(** * Yokis-EnOcean shutters: a shallow embedding of [shutters.py] and [actions.py]

    The module keeps its state in global dictionaries keyed by the shutter
    alias.  The dictionaries filled once by the configuration loop are the
    fields of [config]; the ones written while the engine runs are the
    fields of [world], next to the chronological log of what the code did
    to the outside (commands handed to [subprocess.run], calls of
    [time.sleep], Position State writes, threads started).

    Conventions of the embedding:
    - Python [float] seconds are exact rationals ([Q]); rounding is not
      modelled, only which quantities are added, divided and compared.
    - [round(time.time() * 1000)] is the argument [now] of [operate].
    - [logs.*] calls are dropped; the dictionary reads that guard them are
      kept, because a missing key raises there too.
    - A motion thread is run to completion against the token registry as it
      stands: a thread superseded by a later [operate] is a run whose
      token differs from the registered one.
    - Shutter names are ASCII. *)

From Stdlib Require Import ZArith QArith Lqa String Ascii List Bool Lia.
From stdpp Require Import base option gmap strings.

Local Close Scope Q_scope.
Local Open Scope string_scope.
Local Open Scope Z_scope.

(** ** Data model *)

Inductive ShutterState := OPEN | CLOSE | STOP | HALF.

(** [_shutter_state_to_command]: HALF has no entry. *)
Definition _shutter_state_to_command (s : ShutterState) : option string :=
  match s with
  | OPEN => Some "on"
  | CLOSE => Some "off"
  | STOP => Some "pause"
  | HALF => None
  end.

Definition _SEND_COMMAND_DELAY : Q := 1 # 10.
Definition _START_MOVING_DELAY : Q := 1 # 2.

Inductive exn :=
| ValueError
| KeyError
| TypeError
| AssertionError
| NoOptionError
| OSError.

(** Result of running a piece of code: it returns, it raises, or the model
    ran out of loop fuel. *)
Inductive outcome (A : Type) :=
| Returned (a : A)
| Raised (e : exn)
| Timeout.
Arguments Returned {A} a.
Arguments Raised {A} e.
Arguments Timeout {A}.

(** What [subprocess.run] can do: the process ran and exited with a status
    (which the code never looks at), or it could not be started and
    [subprocess.run] raised. *)
Inductive chan_result :=
| Exited (status : Z)
| LaunchError.

Inductive event :=
| Cmd (command hw : string)   (* subprocess.run([shuttercmd, command + " " + hw]) *)
| Sleep (seconds : Q)         (* time.sleep(seconds) *)
| SetPercent (shutter : string) (p : Z)             (* _shutter_state_percent[shutter] = p *)
| SetState (shutter : string) (s : ShutterState)    (* _shutter_state[shutter] = s *)
| Spawn (shutter : string) (desired : option Z) (token : Z).  (* Thread(...).start() *)

Record config := Config {
  _shutters : gmap string string;
  _shutter_locks : gset string;
  _shutter_delay_close : gmap string Q;
  _shutter_closed_offset : gmap string Q;
  _shutter_delay_open : gmap string Q;
  _shutter_halfway : gmap string Z
}.

Record world := World {
  _shutter_thread_tokens : gmap string Z;
  _shutter_state : gmap string ShutterState;
  _shutter_state_percent : gmap string Z;
  trace : list event
}.

(** [str.lower] on ASCII text. *)
Definition lower_ascii (a : ascii) : ascii :=
  let n := nat_of_ascii a in
  if ((65 <=? n)%nat && (n <=? 90)%nat)%bool then ascii_of_nat (n + 32) else a.

Fixpoint lower (s : string) : string :=
  match s with
  | EmptyString => EmptyString
  | String a s' => String (lower_ascii a) (lower s')
  end.

Definition Qlt_bool (x y : Q) : bool := negb (Qle_bool y x).

(** ** Configuration loading (the module-level loop over [config.sections()]) *)

(** One section of [config/shutters.ini] after [ConfigParser] parsed it:
    [None] is an option that is not there ([fallback=None]). *)
Record ini_section := IniSection {
  sec_title : string;
  opt_name : option string;
  opt_close : option Q;
  opt_offset : option Q;
  opt_open : option Q;
  opt_halfway : option Z
}.

(** Python truth value of a [float] or [None]. *)
Definition truthy (o : option Q) : bool :=
  match o with
  | Some q => negb (Qeq_bool q 0)
  | None => false
  end.

(** [a or b]. *)
Definition py_or (a b : option Q) : option Q := if truthy a then a else b.

Definition is_None (o : option Q) : bool :=
  match o with None => true | Some _ => false end.

Definition floor0 (q : Q) : Q := if Qlt_bool q 0 then 0%Q else q.

Definition empty_config : config :=
  Config ∅ ∅ ∅ ∅ ∅ ∅.

Definition load_section (cfg : config) (sec : ini_section) : outcome config :=
  let shutter_alias := lower (sec_title sec) in
  match opt_name sec with
  | None => Raised NoOptionError
  | Some shutter_internal_name =>
    let shutter_close_delay := opt_close sec in
    let shutter_closed_offset := opt_offset sec in
    let shutter_open_delay := opt_open sec in
    let shutter_half_open := default 50 (opt_halfway sec) in
    if bool_decide (is_Some (_shutters cfg !! shutter_alias)) then Raised ValueError
    else
      let shutters' := <[shutter_alias := shutter_internal_name]> (_shutters cfg) in
      if (truthy (py_or (py_or shutter_close_delay shutter_closed_offset) shutter_open_delay)
          && existsb is_None [shutter_open_delay; shutter_closed_offset; shutter_open_delay])%bool
      then Raised ValueError
      else
        let delays :=
          if truthy shutter_close_delay then
            match shutter_close_delay, shutter_closed_offset, shutter_open_delay with
            | Some cl, Some off, Some op =>
                Returned (<[shutter_alias := floor0 cl]> (_shutter_delay_close cfg),
                          <[shutter_alias := floor0 off]> (_shutter_closed_offset cfg),
                          <[shutter_alias := floor0 op]> (_shutter_delay_open cfg))
            | _, _, _ => Raised TypeError
            end
          else Returned (_shutter_delay_close cfg, _shutter_closed_offset cfg, _shutter_delay_open cfg) in
        match delays with
        | Returned (dc, co, dop) =>
            let shutter_half_open := if shutter_half_open <? 0 then 0 else shutter_half_open in
            let shutter_half_open := if shutter_half_open >? 99 then 99 else shutter_half_open in
            Returned (Config shutters' ({[shutter_alias]} ∪ _shutter_locks cfg : gset string) dc co dop
                             (<[shutter_alias := shutter_half_open]> (_shutter_halfway cfg)))
        | Raised e => Raised e
        | Timeout => Timeout
        end
  end.

Fixpoint load_sections (cfg : config) (secs : list ini_section) : outcome config :=
  match secs with
  | [] => Returned cfg
  | sec :: rest =>
      match load_section cfg sec with
      | Returned cfg' => load_sections cfg' rest
      | Raised e => Raised e
      | Timeout => Timeout
      end
  end.

Definition load_config (secs : list ini_section) : outcome config :=
  load_sections empty_config secs.

(** ** A state-and-exception monad over [world]

    A raising computation keeps the world it reached: the dictionaries are
    global and nothing rolls them back. *)

Definition M (A : Type) : Type := world -> outcome A * world.

Definition ret {A} (a : A) : M A := fun w => (Returned a, w).

Definition bind {A B} (m : M A) (k : A -> M B) : M B :=
  fun w =>
    match m w with
    | (Returned a, w') => k a w'
    | (Raised e, w') => (Raised e, w')
    | (Timeout, w') => (Timeout, w')
    end.

Definition raise {A} (e : exn) : M A := fun w => (Raised e, w).

Definition out_of_fuel {A} : M A := fun w => (Timeout, w).

Notation "x <- m ;; k" := (bind m (fun x => k))
  (at level 100, m at next level, right associativity).
Notation "m ;; k" := (bind m (fun _ => k))
  (at level 100, right associativity).

Definition emit (e : event) : M unit :=
  fun w => (Returned tt,
            World (_shutter_thread_tokens w) (_shutter_state w)
                  (_shutter_state_percent w) (trace w ++ [e])).

(** [time.sleep(seconds)]; a negative length raises. *)
Definition sleep (seconds : Q) : M unit :=
  if Qlt_bool seconds 0 then raise ValueError else emit (Sleep seconds).

(** [_shutter_state[shutter] = s]. *)
Definition set_state (shutter : string) (s : ShutterState) : M unit :=
  fun w => (Returned tt,
            World (_shutter_thread_tokens w) (<[shutter := s]> (_shutter_state w))
                  (_shutter_state_percent w) (trace w ++ [SetState shutter s])).

(** [_shutter_state_percent[shutter] = p]. *)
Definition set_percent (shutter : string) (p : Z) : M unit :=
  fun w => (Returned tt,
            World (_shutter_thread_tokens w) (_shutter_state w)
                  (<[shutter := p]> (_shutter_state_percent w))
                  (trace w ++ [SetPercent shutter p])).

(** [_shutter_thread_tokens[shutter] = t]. *)
Definition set_token (shutter : string) (t : Z) : M unit :=
  fun w => (Returned tt,
            World (<[shutter := t]> (_shutter_thread_tokens w)) (_shutter_state w)
                  (_shutter_state_percent w) (trace w)).

(** [_shutter_thread_tokens[shutter] == thread_token]; a missing key raises. *)
Definition token_is_current (shutter : string) (thread_token : Z) : M bool :=
  fun w =>
    match _shutter_thread_tokens w !! shutter with
    | Some t => (Returned (t =? thread_token), w)
    | None => (Raised KeyError, w)
    end.

(** [_shutter_thread_tokens.get(shutter, 0)]. *)
Definition token_or_zero (shutter : string) : M Z :=
  fun w => (Returned (default 0 (_shutter_thread_tokens w !! shutter)), w).

(** [float] arithmetic on a value that may be [None]. *)
Definition as_float (o : option Q) : M Q :=
  match o with
  | Some q => ret q
  | None => raise TypeError
  end.

Definition clamp (p : Z) : Z :=
  let p := if p <? 0 then 0 else p in
  if p >? 100 then 100 else p.

(** [get_current_state]. *)
Definition get_current_state (w : world) (shutter : string) : ShutterState :=
  default STOP (_shutter_state w !! shutter).

(** [get_current_state_percent]. *)
Definition get_current_state_percent (w : world) (shutter : string) : option Z :=
  match _shutter_state_percent w !! shutter with
  | None => None
  | Some state =>
      if state <? 0 then Some 0
      else if state >? 100 then Some 100
      else Some state
  end.

Definition read_current_state_percent (shutter : string) : M (option Z) :=
  fun w => (Returned (get_current_state_percent w shutter), w).

(** The test of lines 241 and 257: the step about to be taken crosses the
    99%/100% boundary. *)
Definition crosses_boundary (current_state increment : Z) : bool :=
  ((current_state =? 100) && (increment =? -1)) || ((current_state =? 99) && (increment =? 1)).

Section Engine.

Variable c : config.
(** The actuator channel, by command word and hardware name. *)
Variable channel : string -> string -> chan_result.

(** [with _shutter_locks[shutter]: body]. *)
Definition with_lock {A} (shutter : string) (body : M A) : M A :=
  if bool_decide (shutter ∈ _shutter_locks c) then body else raise KeyError.

Definition get_full_length_delay (shutter : string) (state : ShutterState) : option Q :=
  match state with
  | OPEN => _shutter_delay_open c !! shutter
  | CLOSE => _shutter_delay_close c !! shutter
  | _ => None
  end.

Definition get_halfway_percent (shutter : string) : option Z :=
  _shutter_halfway c !! shutter.

Definition get_closed_offset_delay (shutter : string) : option Q :=
  _shutter_closed_offset c !! shutter.

(** [subprocess.run]: the command is handed over, then either the process
    exits (status ignored) or starting it raises. *)
Definition run_channel (command hw : string) : M unit :=
  emit (Cmd command hw) ;;
  match channel command hw with
  | Exited _ => ret tt
  | LaunchError => raise OSError
  end.

Definition _send_command (shutter : string) (state : ShutterState) : M unit :=
  let shutter := lower shutter in
  match _shutters c !! shutter with
  | None => raise ValueError
  | Some hw =>
      match _shutter_state_to_command state with
      | None => raise ValueError
      | Some command =>
          run_channel command hw ;;
          sleep _SEND_COMMAND_DELAY
      end
  end.

Definition _send_command_from_thread (shutter : string) (state : ShutterState)
    (thread_token : Z) : M unit :=
  ok <- token_is_current shutter thread_token ;;
  if ok then with_lock shutter (_send_command shutter state) else ret tt.

(** The discrete state written next to a (clamped) percent, lines 189-196. *)
Definition state_of_percent (shutter : string) (state_percent : Z) : ShutterState :=
  if state_percent <=? 0 then OPEN
  else if state_percent >=? 100 then CLOSE
  else if bool_decide (Some state_percent = get_halfway_percent shutter) then HALF
  else STOP.

Definition _update_state_percent_from_thread (shutter : string) (state_percent : Z)
    (thread_token : Z) : M unit :=
  let state_percent := clamp state_percent in
  ok <- token_is_current shutter thread_token ;;
  if ok then
    with_lock shutter
      (set_percent shutter state_percent ;;
       set_state shutter (state_of_percent shutter state_percent))
  else ret tt.

(** The [while True] loop of lines 252-264; it returns [current_state] as
    it stands at the [break]. *)
Fixpoint motion_loop (fuel : nat) (shutter : string) (desired_state_percent : Z)
    (thread_token : Z) (one_percent_delay : Q) (increment : Z)
    (current_state : Z) : M Z :=
  match fuel with
  | O => out_of_fuel
  | S fuel' =>
      let current_state := current_state + increment in
      _update_state_percent_from_thread shutter current_state thread_token ;;
      if current_state =? desired_state_percent then ret current_state
      else
        (if crosses_boundary current_state increment then
           token_is_current shutter thread_token ;;
           d <- as_float (get_closed_offset_delay shutter) ;;
           sleep d
         else
           token_is_current shutter thread_token ;;
           sleep one_percent_delay) ;;
        motion_loop fuel' shutter desired_state_percent thread_token
                    one_percent_delay increment current_state
  end.

(** Lines 215-225: with no known percent the thread first drives to an
    end of travel; the value is the local [current_state] afterwards. *)
Definition drive_to_endpoint (shutter : string) (desired_state_percent : Z)
    (thread_token : Z) (known : option Z) : M Z :=
  match known with
  | Some current_state => ret current_state
  | None =>
      let target_initial_state := if desired_state_percent <=? 50 then OPEN else CLOSE in
      let target_initial_percent := if desired_state_percent <=? 50 then 0 else 100 in
      _send_command_from_thread shutter target_initial_state thread_token ;;
      full <- as_float (get_full_length_delay shutter target_initial_state) ;;
      offset <- as_float (get_closed_offset_delay shutter) ;;
      let target_initial_delay := (full + offset + 1)%Q in
      token_is_current shutter thread_token ;;
      sleep target_initial_delay ;;
      _update_state_percent_from_thread shutter target_initial_percent thread_token ;;
      ret target_initial_percent
  end.

(** Lines 227-270: the move from the local [current_state]. *)
Definition move_from (fuel : nat) (shutter : string) (desired_state_percent : Z)
    (thread_token : Z) (current_state : Z) : M unit :=
  if current_state =? desired_state_percent then
    token_is_current shutter thread_token ;;
    (if desired_state_percent =? 0
     then _send_command_from_thread shutter OPEN thread_token else ret tt) ;;
    (if desired_state_percent =? 100
     then _send_command_from_thread shutter CLOSE thread_token else ret tt)
  else
    let direction := if desired_state_percent <? current_state then OPEN else CLOSE in
    full <- as_float (get_full_length_delay shutter direction) ;;
    let one_percent_delay := (full / 99)%Q in
    let increment := match direction with OPEN => -1 | _ => 1 end in
    first_percent_delay <-
      (if crosses_boundary current_state increment then
         offset <- as_float (get_closed_offset_delay shutter) ;;
         ret (offset - _SEND_COMMAND_DELAY)%Q
       else ret (one_percent_delay - _SEND_COMMAND_DELAY)%Q) ;;
    _send_command_from_thread shutter direction thread_token ;;
    let first_percent_delay :=
      ((if Qlt_bool 0 first_percent_delay then first_percent_delay else 0)
       + _START_MOVING_DELAY)%Q in
    token_is_current shutter thread_token ;;
    sleep first_percent_delay ;;
    current_state <- motion_loop fuel shutter desired_state_percent thread_token
                                 one_percent_delay increment current_state ;;
    token_is_current shutter thread_token ;;
    if (current_state >? 0) && (current_state <? 100)
    then _send_command_from_thread shutter STOP thread_token
    else ret tt.

(** [_move_to_state_percent], lines 198-270, as the two parts above run one
    after the other. *)
Definition _move_to_state_percent (fuel : nat) (shutter : string)
    (desired_state_percent : Z) (thread_token : Z) : M unit :=
  let desired_state_percent := clamp desired_state_percent in
  known <- read_current_state_percent shutter ;;
  current_state <- drive_to_endpoint shutter desired_state_percent thread_token known ;;
  move_from fuel shutter desired_state_percent thread_token current_state.

(** The test of lines 291-294. *)
Definition fine_tunable (shutter : string) : bool :=
  bool_decide (is_Some (_shutter_delay_close c !! shutter))
  && bool_decide (is_Some (_shutter_closed_offset c !! shutter))
  && bool_decide (is_Some (_shutter_delay_open c !! shutter))
  && bool_decide (is_Some (_shutter_halfway c !! shutter)).

(** [operate]; [now] is [round(time.time() * 1000)] as read under the lock.
    Starting the motion thread is logged as [Spawn]; the thread body is
    [_move_to_state_percent] on the logged arguments. *)
Definition operate (shutter : string) (state : ShutterState)
    (target_half_state : option Z) (now : Z) : M bool :=
  let shutter := lower shutter in
  if negb (bool_decide (is_Some (_shutters c !! shutter))) then raise ValueError
  else
    with_lock shutter
      (current <- token_or_zero shutter ;;
       let thread_token := if current =? now then now - 1 else now in
       set_token shutter thread_token ;;
       if fine_tunable shutter then
         let desired_state_percent := target_half_state in
         let desired_state_percent :=
           match state, target_half_state with
           | HALF, None => get_halfway_percent shutter
           | _, _ => desired_state_percent
           end in
         let desired_state_percent :=
           match state with OPEN => Some 0 | _ => desired_state_percent end in
         let desired_state_percent :=
           match state with CLOSE => Some 100 | _ => desired_state_percent end in
         match state with
         | STOP =>
             set_state shutter state ;;
             _send_command shutter state ;;
             ret true
         | _ =>
             emit (Spawn shutter desired_state_percent thread_token) ;;
             ret true
         end
       else
         match state with
         | HALF => ret false
         | _ =>
             set_state shutter state ;;
             _send_command shutter state ;;
             ret true
         end).

(** The body of a started thread: [assert isinstance(desired_state_percent, int)]
    fails on [None]. *)
Definition run_thread (fuel : nat) (shutter : string) (desired : option Z)
    (thread_token : Z) : M unit :=
  match desired with
  | Some d => _move_to_state_percent fuel shutter d thread_token
  | None => raise AssertionError
  end.

End Engine.

(** ** Sequences of calls *)

(** The token [operate] registers, lines 285-288, from the registered one
    (if any) and the clock reading. *)
Definition minted (current : option Z) (now : Z) : Z :=
  if default 0 current =? now then now - 1 else now.

(** [operate] called once per element of [calls] (state, override, clock
    reading) on one shutter; the value lists the token found in the
    registry after each call. *)
Fixpoint operate_all (c : config) (channel : string -> string -> chan_result)
    (shutter : string) (calls : list (ShutterState * option Z * Z)) (w : world)
    : list Z * world :=
  match calls with
  | [] => ([], w)
  | (state, target_half_state, now) :: rest =>
      let w1 := snd (operate c channel shutter state target_half_state now w) in
      let '(issued, w2) := operate_all c channel shutter rest w1 in
      (match _shutter_thread_tokens w1 !! lower shutter with
       | Some t => t :: issued
       | None => issued
       end, w2)
  end.

Fixpoint increasing (l : list Z) : Prop :=
  match l with
  | a :: (b :: _) as rest => a < b /\ increasing rest
  | _ => True
  end.

Fixpoint differs_from_previous (previous : option Z) (issued : list Z) : Prop :=
  match issued with
  | [] => True
  | t :: rest => previous <> Some t /\ differs_from_previous (Some t) rest
  end.

(** The calls [operate] serves by sending the command itself: STOP on a
    fine-tunable shutter, anything but HALF on a basic one. *)
Definition synchronous (c : config) (shutter : string) (state : ShutterState) : bool :=
  if fine_tunable c shutter
  then match state with STOP => true | _ => false end
  else match state with HALF => false | _ => true end.

(** ** What a run is expected to log and store *)

(** The discrete state as the specification words it, by cases on the
    percent in this order: 0, 100, the halfway percent, anything else. *)
Definition state_for_percent (halfway : option Z) (p : Z) : ShutterState :=
  if p =? 0 then OPEN
  else if p =? 100 then CLOSE
  else if bool_decide (halfway = Some p) then HALF
  else STOP.

(** A command sent by a thread, if its token was current. *)
Definition sent (ok : bool) (command hw : string) : list event :=
  if ok then [Cmd command hw; Sleep _SEND_COMMAND_DELAY] else [].

(** A percent written by a thread, if its token was current. *)
Definition written (c : config) (ok : bool) (shutter : string) (p : Z) : list event :=
  if ok then [SetPercent shutter p; SetState shutter (state_of_percent c shutter p)] else [].

(** The sleep before the step that leaves percent [p]. *)
Definition step_delay (offset one_percent_delay : Q) (p increment : Z) : Q :=
  if crosses_boundary p increment then offset else one_percent_delay.

(** The loop, step by step: step [k] of [steps] reaches
    [start + increment * k], writes it, and (unless it is the last) sleeps
    for the next step. *)
Definition loop_plan (c : config) (ok : bool) (shutter : string)
    (offset one_percent_delay : Q) (increment start : Z) (steps : nat) : list event :=
  flat_map
    (fun k =>
       let p := start + increment * Z.of_nat k in
       (written c ok shutter p ++
        if (k <? steps)%nat
        then [Sleep (step_delay offset one_percent_delay p increment)]
        else [])%list)
    (seq 1 steps).

(** The sleep before the first step, lines 241-247. *)
Definition first_step_delay (offset one_percent_delay : Q) (current increment : Z) : Q :=
  let d := (step_delay offset one_percent_delay current increment - _SEND_COMMAND_DELAY)%Q in
  ((if Qlt_bool 0 d then d else 0) + _START_MOVING_DELAY)%Q.

Definition steps_between (current desired : Z) : nat := Z.to_nat (Z.abs (desired - current)).

(** A whole move from [current] to a different [desired]. *)
Definition move_plan (c : config) (ok : bool) (shutter hw : string)
    (close offset open : Q) (current desired : Z) : list event :=
  let opening := desired <? current in
  let one_percent_delay := ((if opening then open else close) / 99)%Q in
  let increment := if opening then -1 else 1 in
  (sent ok (if opening then "on" else "off") hw
   ++ [Sleep (first_step_delay offset one_percent_delay current increment)]
   ++ loop_plan c ok shutter offset one_percent_delay increment current
                (steps_between current desired)
   ++ (if (0 <? desired) && (desired <? 100) then sent ok "pause" hw else []))%list.

(** The re-assertion when the shutter already stands at [desired]. *)
Definition resend_plan (ok : bool) (hw : string) (desired : Z) : list event :=
  if desired =? 0 then sent ok "on" hw
  else if desired =? 100 then sent ok "off" hw
  else [].

(** The drive to an end of travel from an unknown percent. *)
Definition endpoint_of (desired : Z) : Z := if desired <=? 50 then 0 else 100.

Definition endpoint_plan (c : config) (ok : bool) (shutter hw : string)
    (close offset open : Q) (desired : Z) : list event :=
  let opening := desired <=? 50 in
  (sent ok (if opening then "on" else "off") hw
   ++ [Sleep ((if opening then open else close) + offset + 1)%Q]
   ++ written c ok shutter (endpoint_of desired))%list.

(** The world once [evs] were logged and, if [wr] is a percent, that
    percent and its discrete state were stored for [shutter]. *)
Definition after (c : config) (shutter : string) (wr : option Z) (evs : list event)
    (w : world) : world :=
  match wr with
  | Some p =>
      World (_shutter_thread_tokens w)
            (<[shutter := state_of_percent c shutter p]> (_shutter_state w))
            (<[shutter := p]> (_shutter_state_percent w))
            (trace w ++ evs)
  | None =>
      World (_shutter_thread_tokens w) (_shutter_state w) (_shutter_state_percent w)
            (trace w ++ evs)
  end.

Definition gated (ok : bool) (p : Z) : option Z := if ok then Some p else None.

(** A shutter of the configuration with its three delays, none negative
    (the loader raises them to 0). *)
Definition calibrated (c : config) (shutter hw : string) (close offset open : Q) : Prop :=
  lower shutter = shutter
  /\ _shutters c !! shutter = Some hw
  /\ shutter ∈ _shutter_locks c
  /\ _shutter_delay_close c !! shutter = Some close
  /\ _shutter_closed_offset c !! shutter = Some offset
  /\ _shutter_delay_open c !! shutter = Some open
  /\ Qle_bool 0 close = true
  /\ Qle_bool 0 offset = true
  /\ Qle_bool 0 open = true.

(** ** A small installation used in the examples *)

Definition shutters_ini : list ini_section :=
  [ IniSection "Salon" (Some "hw1") (Some 12%Q) (Some 2%Q) (Some 10%Q) None;
    IniSection "Cuisine" (Some "hw2") None None None None ].

Definition cfg0 : config :=
  match load_config shutters_ini with
  | Returned cfg => cfg
  | _ => empty_config
  end.

Definition channel_up (command hw : string) : chan_result := Exited 0.
Definition channel_failing (command hw : string) : chan_result := Exited 1.
Definition channel_missing (command hw : string) : chan_result := LaunchError.

Definition fresh : world := World ∅ ∅ ∅ [].

(** The salon shutter at [p] percent with token [t] registered. *)
Definition salon_at (p : Z) (t : Z) : world :=
  World {["salon" := t]} ∅ {["salon" := p]} [].


(** The same call on the salon shutter made twice in a row, at clock
    readings 1000 and 1001: the thread of the first call then holds token
    1000 while 1001 is registered. *)
Definition issued_twice (state : ShutterState) (target_half_state : option Z)
    (w : world) : world :=
  snd (operate cfg0 channel_up "salon" state target_half_state 1001
         (snd (operate cfg0 channel_up "salon" state target_half_state 1000 w))).

(** A section with [offset] and [open] but no [close]. *)
Definition partial_ini : list ini_section :=
  [ IniSection "Salon" (Some "hw1") None (Some 2%Q) (Some 10%Q) None ].

(** A computation that leaves [_shutter_thread_tokens] as it found it. *)
Definition keeps_tokens {A} (m : M A) : Prop :=
  forall w, _shutter_thread_tokens (snd (m w)) = _shutter_thread_tokens w.

(** A log in which every percent write is a percent from 0 to 100 followed
    at once by the write of the discrete state that goes with it. *)
Inductive well_paired (c : config) : list event -> Prop :=
| paired_nil : well_paired c []
| paired_write shutter p rest :
    0 <= p <= 100 ->
    well_paired c rest ->
    well_paired c (SetPercent shutter p
                   :: SetState shutter (state_for_percent (get_halfway_percent c shutter) p)
                   :: rest)
| paired_other e rest :
    (forall shutter p, e <> SetPercent shutter p) ->
    well_paired c rest ->
    well_paired c (e :: rest).

(** A computation that only adds such a log to the trace. *)
Definition pairs_writes (c : config) {A} (m : M A) : Prop :=
  forall w, exists evs, trace (snd (m w)) = (trace w ++ evs)%list /\ well_paired c evs.

(** What the loader keeps true of the dictionaries it fills. *)
Definition config_ok (cfg : config) : Prop :=
  (forall sh, sh ∈ _shutter_locks cfg <-> is_Some (_shutters cfg !! sh))
  /\ (forall sh, is_Some (_shutters cfg !! sh) -> lower sh = sh)
  /\ (forall sh, is_Some (_shutter_delay_close cfg !! sh) -> is_Some (_shutters cfg !! sh))
  /\ (forall sh q, _shutter_delay_close cfg !! sh = Some q -> Qle_bool 0 q = true)
  /\ (forall sh q, _shutter_closed_offset cfg !! sh = Some q -> Qle_bool 0 q = true)
  /\ (forall sh q, _shutter_delay_open cfg !! sh = Some q -> Qle_bool 0 q = true)
  /\ (forall sh h, _shutter_halfway cfg !! sh = Some h -> 0 <= h <= 99).

(** The three delay dictionaries hold the same shutters. *)
Definition delays_together (cfg : config) : Prop :=
  forall sh,
    (is_Some (_shutter_delay_close cfg !! sh) <-> is_Some (_shutter_closed_offset cfg !! sh))
    /\ (is_Some (_shutter_delay_close cfg !! sh) <-> is_Some (_shutter_delay_open cfg !! sh)).

(** ** Relations between the world before and after a piece of code *)

(** Every run of [m] takes a world to one related to it by [R], however the
    run ends. *)
Definition steps (R : world -> world -> Prop) {A} (m : M A) : Prop :=
  forall w, R w (snd (m w)).

(** [m] never runs out of loop fuel: it returns or raises. *)
Definition finishes {A} (m : M A) : Prop :=
  forall w, fst (m w) <> Timeout.

(** The three dictionaries are the same in both worlds. *)
Definition same_stores (w w' : world) : Prop :=
  _shutter_thread_tokens w' = _shutter_thread_tokens w
  /\ _shutter_state w' = _shutter_state w
  /\ _shutter_state_percent w' = _shutter_state_percent w.

(** [w'] is [w] with more events logged, all of them satisfying [P]. *)
Definition logged_only (P : event -> Prop) (w w' : world) : Prop :=
  exists evs, trace w' = (trace w ++ evs)%list /\ Forall P evs.

Definition is_sleep (e : event) : Prop :=
  match e with Sleep _ => True | _ => False end.

(** What a thread holding [tok] may do while another token is registered
    for [shutter]: sleep. *)
Definition only_sleeps (shutter : string) (tok : Z) (w w' : world) : Prop :=
  (exists t, _shutter_thread_tokens w !! shutter = Some t /\ t <> tok) ->
  same_stores w w' /\ logged_only is_sleep w w'.

(** A command of the actuator's vocabulary for a configured hardware name. *)
Definition known_command (c : config) (e : event) : Prop :=
  match e with
  | Cmd command hw =>
      (command = "on" \/ command = "off" \/ command = "pause")
      /\ exists shutter, _shutters c !! shutter = Some hw
  | _ => True
  end.

(** Every stored percent lies between 0 and 100. *)
Definition percents_in_range (w : world) : Prop :=
  forall shutter p, _shutter_state_percent w !! shutter = Some p -> 0 <= p <= 100.

Definition keeps_percents_in_range (w w' : world) : Prop :=
  percents_in_range w -> percents_in_range w'.

(** Nothing stored for a shutter other than [shutter] has changed. *)
Definition others_untouched (shutter : string) (w w' : world) : Prop :=
  forall other, other <> shutter ->
    _shutter_thread_tokens w' !! other = _shutter_thread_tokens w !! other
    /\ _shutter_state w' !! other = _shutter_state w !! other
    /\ _shutter_state_percent w' !! other = _shutter_state_percent w !! other.

(** ** Time spent sleeping *)

(** The seconds slept over a log. *)
Fixpoint slept (evs : list event) : Q :=
  match evs with
  | [] => 0
  | Sleep d :: rest => d + slept rest
  | _ :: rest => slept rest
  end.

(** The nominal time of [steps] steps from [current]: the sum over the
    percents left of the delay for the step leaving each. *)
Fixpoint travel_time (offset one_percent_delay : Q) (increment current : Z)
    (steps : nat) : Q :=
  match steps with
  | O => 0
  | S steps' =>
      step_delay offset one_percent_delay current increment
      + travel_time offset one_percent_delay increment (current + increment) steps'
  end.

(** ** What the loader stores *)

(** The key a section is stored under. *)
Definition alias_of (sec : ini_section) : string := lower (sec_title sec).

(** The halfway percent kept for a section: 50 when not given, brought
    into 0..99. *)
Definition halfway_of (sec : ini_section) : Z :=
  Z.min 99 (Z.max 0 (default 50 (opt_halfway sec))).

(** ** Actions ([src/actions.py]) *)

(** [str.upper] on ASCII text.  Python's [str.upper] also takes a few
    letters outside ASCII to ASCII ones (U+017F to S); a statement that
    relies on a text being refused is made for ASCII text ([isascii]). *)
Definition upper_ascii (a : ascii) : ascii :=
  let n := nat_of_ascii a in
  if ((97 <=? n)%nat && (n <=? 122)%nat)%bool then ascii_of_nat (n - 32) else a.

Fixpoint upper (s : string) : string :=
  match s with
  | EmptyString => EmptyString
  | String a s' => String (upper_ascii a) (upper s')
  end.

(** [s.split(sep)] for a one-character separator; the result is never the
    empty list ([''.split(':')] is [['']]). *)
Fixpoint split (sep : ascii) (s : string) : list string :=
  match s with
  | EmptyString => [EmptyString]
  | String a s' =>
      if Ascii.eqb a sep then EmptyString :: split sep s'
      else match split sep s' with
           | field :: fields => String a field :: fields
           | [] => [String a EmptyString]
           end
  end.

(** [sep.join(fields)]. *)
Fixpoint join (sep : string) (fields : list string) : string :=
  match fields with
  | [] => EmptyString
  | [field] => field
  | field :: rest => field ++ sep ++ join sep rest
  end.

(** [s[n:]]. *)
Fixpoint drop_chars (n : nat) (s : string) : string :=
  match n, s with
  | O, _ => s
  | S n', String _ s' => drop_chars n' s'
  | S _, EmptyString => EmptyString
  end.

(** [ShutterState[name]]: [None] is the [KeyError] of the enum lookup. *)
Definition ShutterState_of_name (name : string) : option ShutterState :=
  if String.eqb name "OPEN" then Some OPEN
  else if String.eqb name "CLOSE" then Some CLOSE
  else if String.eqb name "STOP" then Some STOP
  else if String.eqb name "HALF" then Some HALF
  else None.

(** The exceptions [str2action] and the [ShutterAction] constructor let
    through. *)
Inductive action_exn := ActionValueError | ActionKeyError | ActionAttributeError.

Inductive built (A : Type) :=
| Built (a : A)
| Failed (e : action_exn).
Arguments Built {A} a.
Arguments Failed {A} e.

(** The attributes of a [ShutterAction]. *)
Record ShutterAction := MkShutterAction {
  sa_shutters : list string;
  sa_state : ShutterState;
  sa_state_long : option ShutterState
}.

(** [ShutterAction.__init__]: [name.split] on [None] is an
    [AttributeError]. *)
Definition ShutterAction_init (name data : option string) : built ShutterAction :=
  match name with
  | None => Failed ActionAttributeError
  | Some name =>
      let shutters := split "+" name in
      match data with
      | None => Failed ActionValueError
      | Some data =>
          let states := split "/" data in
          if (2 <? length states)%nat then Failed ActionValueError
          else
            match ShutterState_of_name (upper (nth 0 states "")) with
            | None => Failed ActionKeyError
            | Some state =>
                if (1 <? length states)%nat then
                  match ShutterState_of_name (upper (nth 1 states "")) with
                  | None => Failed ActionKeyError
                  | Some state_long =>
                      Built (MkShutterAction shutters state (Some state_long))
                  end
                else Built (MkShutterAction shutters state None)
            end
      end
  end.

(** [str2action]; [setting_name] only appears in the messages of the
    exceptions. *)
Definition str2action (action : string) : built ShutterAction :=
  let action_fields := split ":" action in
  if (length action_fields <? 1)%nat then Failed ActionValueError
  else
    let action_type := lower (nth 0 action_fields "") in
    let action_name :=
      if (1 <? length action_fields)%nat then Some (nth 1 action_fields "") else None in
    let action_data :=
      if (2 <? length action_fields)%nat
      then Some (drop_chars (String.length action_type
                             + String.length (nth 1 action_fields "") + 2) action)
      else None in
    if String.eqb action_type "shutter" then ShutterAction_init action_name action_data
    else Failed ActionValueError.

Section Running.

Variable c : config.
Variable channel : string -> string -> chan_result.
(** The millisecond clock as the successive [operate] calls of one run read
    it. *)
Variable clock : nat -> Z.

(** [for shutter in self.shutters: shutters.operate(shutter, state)]: the
    boolean is dropped, an exception ends the loop. *)
Fixpoint operate_each (call : nat) (shutters : list string) (state : ShutterState) : M unit :=
  match shutters with
  | [] => ret tt
  | shutter :: rest =>
      operate c channel shutter state None (clock call) ;;
      operate_each (S call) rest state
  end.

(** [ShutterAction.run]. *)
Definition ShutterAction_run (a : ShutterAction) (secondary_action : bool) : M unit :=
  if secondary_action then
    match sa_state_long a with
    | Some state_long => operate_each 0 (sa_shutters a) state_long
    | None => ret tt
    end
  else operate_each 0 (sa_shutters a) (sa_state a).

End Running.

(** The documented text of an action,
    [shutter:shutter_name:operation[/operation_on_release_long_press]], for
    given words. *)
Definition action_text (type : string) (names : list string) (operation : string)
    (operation_long : option string) : string :=
  type ++ ":" ++ join "+" names ++ ":" ++ operation
  ++ match operation_long with Some l => "/" ++ l | None => "" end.

(** [str.isascii]: every character is below 128. *)
Fixpoint isascii (s : string) : bool :=
  match s with
  | EmptyString => true
  | String a s' => (nat_of_ascii a <? 128)%nat && isascii s'
  end.

(** A character occurs in a text. *)
Fixpoint has_char (a : ascii) (s : string) : bool :=
  match s with
  | EmptyString => false
  | String b s' => Ascii.eqb b a || has_char a s'
  end.

(** What [operate] logs for a synchronous dispatch that starts. *)
Definition dispatch_log (c : config) (state : ShutterState) (shutter : string) : list event :=
  [SetState (lower shutter) state;
   Cmd (default "" (_shutter_state_to_command state))
       (default "" (_shutters c !! lower shutter));
   Sleep _SEND_COMMAND_DELAY].

(** * Properties *)

(** ** Strings *)

Lemma lower_ascii_idem a : lower_ascii (lower_ascii a) = lower_ascii a.
Proof. destruct a as [[] [] [] [] [] [] [] []]; reflexivity. Qed.

Lemma lower_idem s : lower (lower s) = lower s.
Proof.
  induction s as [|a s IH]; simpl; [reflexivity|].
  by rewrite lower_ascii_idem, IH.
Qed.

(** ** Configuration loading *)

Lemma load_section_delays_together cfg sec cfg' :
  delays_together cfg -> load_section cfg sec = Returned cfg' -> delays_together cfg'.
Proof.
  intros Hinv. unfold load_section.
  destruct (opt_name sec) as [name|]; [|discriminate].
  destruct (bool_decide _); [discriminate|].
  destruct (_ && _); [discriminate|].
  destruct (truthy (opt_close sec)).
  - destruct (opt_close sec) as [cl|], (opt_offset sec) as [off|], (opt_open sec) as [op|];
      try discriminate.
    intros [= <-]. intros sh. cbn.
    destruct (decide (lower (sec_title sec) = sh)) as [->|Hne].
    + rewrite !lookup_insert_eq. split; split; eauto.
    + rewrite !lookup_insert_ne by done. apply Hinv.
  - intros [= <-]. exact Hinv.
Qed.

Lemma load_sections_delays_together secs : forall cfg cfg',
  delays_together cfg -> load_sections cfg secs = Returned cfg' -> delays_together cfg'.
Proof.
  induction secs as [|sec rest IH]; intros cfg cfg' Hinv; cbn.
  - by intros [= <-].
  - destruct (load_section cfg sec) as [cfg1| |] eqn:E; try discriminate.
    apply IH. by apply (load_section_delays_together cfg sec).
Qed.

(** Whatever was loaded, the three delay dictionaries hold the same
    shutters. *)
Lemma load_config_delays_together secs cfg :
  load_config secs = Returned cfg -> delays_together cfg.
Proof.
  apply load_sections_delays_together. intros sh. cbn.
  rewrite !lookup_empty. split; split; intros [? [=]].
Qed.

(** A section whose [close] is a non-zero number and whose [offset] or
    [open] is missing is refused. *)
Lemma load_section_refuses_close_alone cfg sec name cl :
  opt_name sec = Some name ->
  _shutters cfg !! lower (sec_title sec) = None ->
  opt_close sec = Some cl -> Qeq_bool cl 0 = false ->
  opt_offset sec = None \/ opt_open sec = None ->
  load_section cfg sec = Raised ValueError.
Proof.
  intros Hn Hs Hc Hnz Hmiss. unfold load_section. rewrite Hn, Hs, Hc.
  rewrite bool_decide_eq_false_2 by (intros [? [=]]).
  unfold py_or. do 4 (cbn [truthy negb]; rewrite ?Hnz).
  destruct Hmiss as [-> | ->]; cbn; [destruct (opt_open sec)|]; reflexivity.
Qed.

Lemma floor0_nonneg q : Qle_bool 0 (floor0 q) = true.
Proof.
  unfold floor0, Qlt_bool. destruct (Qle_bool 0 q) eqn:E; cbn [negb]; [exact E|reflexivity].
Qed.

Lemma load_section_ok cfg sec cfg' :
  config_ok cfg -> load_section cfg sec = Returned cfg' -> config_ok cfg'.
Proof.
  intros (Hlocks & Hlow & Hdom & Hcl & Hoff & Hop & Hhalf). unfold load_section.
  destruct (opt_name sec) as [name|]; [|discriminate].
  destruct (bool_decide _); [discriminate|].
  destruct (_ && _); [discriminate|].
  set (alias := lower (sec_title sec)).
  set (half := if (if default 50 (opt_halfway sec) <? 0 then 0
                   else default 50 (opt_halfway sec)) >? 99 then 99
               else if default 50 (opt_halfway sec) <? 0 then 0
                    else default 50 (opt_halfway sec)).
  assert (Hh : 0 <= half <= 99).
  { unfold half. destruct (Z.ltb_spec (default 50 (opt_halfway sec)) 0).
    - destruct (Z.gtb_spec 0 99); lia.
    - destruct (Z.gtb_spec (default 50 (opt_halfway sec)) 99); lia. }
  assert (Hshared : forall dc co dop,
    (forall sh, is_Some (dc !! sh) -> is_Some (<[alias := name]> (_shutters cfg) !! sh)) ->
    (forall sh q, dc !! sh = Some q -> Qle_bool 0 q = true) ->
    (forall sh q, co !! sh = Some q -> Qle_bool 0 q = true) ->
    (forall sh q, dop !! sh = Some q -> Qle_bool 0 q = true) ->
    config_ok (Config (<[alias := name]> (_shutters cfg))
                      ({[alias]} ∪ _shutter_locks cfg) dc co dop
                      (<[alias := half]> (_shutter_halfway cfg)))).
  { intros dc co dop H1 H2 H3 H4.
    refine (conj _ (conj _ (conj H1 (conj H2 (conj H3 (conj H4 _)))))); cbn.
    - intros sh. rewrite elem_of_union, elem_of_singleton, Hlocks.
      destruct (decide (alias = sh)) as [->|Hne].
      + rewrite lookup_insert_eq. split; eauto.
      + rewrite lookup_insert_ne by done. split; [intros [E|E]; [congruence|done]|auto].
    - intros sh. destruct (decide (alias = sh)) as [<-|Hne]; [intros _; apply lower_idem|].
      rewrite lookup_insert_ne by done. apply Hlow.
    - intros sh h. destruct (decide (alias = sh)) as [<-|Hne].
      + rewrite lookup_insert_eq. intros [= <-]. exact Hh.
      + rewrite lookup_insert_ne by done. apply Hhalf. }
  assert (Hkeep : forall sh, is_Some (_shutter_delay_close cfg !! sh) ->
                             is_Some (<[alias := name]> (_shutters cfg) !! sh)).
  { intros sh E. destruct (decide (alias = sh)) as [->|Hne].
    - rewrite lookup_insert_eq. eauto.
    - rewrite lookup_insert_ne by done. by apply Hdom. }
  destruct (truthy (opt_close sec)).
  - destruct (opt_close sec) as [cl|], (opt_offset sec) as [off|], (opt_open sec) as [op|];
      try discriminate.
    intros [= <-]. apply Hshared.
    + intros sh E. destruct (decide (alias = sh)) as [->|Hne].
      * rewrite lookup_insert_eq. eauto.
      * rewrite lookup_insert_ne in E by done. by apply Hkeep.
    + intros sh q. destruct (decide (alias = sh)) as [->|Hne].
      * rewrite lookup_insert_eq. intros [= <-]. apply floor0_nonneg.
      * rewrite lookup_insert_ne by done. apply Hcl.
    + intros sh q. destruct (decide (alias = sh)) as [->|Hne].
      * rewrite lookup_insert_eq. intros [= <-]. apply floor0_nonneg.
      * rewrite lookup_insert_ne by done. apply Hoff.
    + intros sh q. destruct (decide (alias = sh)) as [->|Hne].
      * rewrite lookup_insert_eq. intros [= <-]. apply floor0_nonneg.
      * rewrite lookup_insert_ne by done. apply Hop.
  - intros [= <-]. by apply Hshared.
Qed.

Lemma load_sections_ok secs : forall cfg cfg',
  config_ok cfg -> load_sections cfg secs = Returned cfg' -> config_ok cfg'.
Proof.
  induction secs as [|sec rest IH]; intros cfg cfg' Hok; cbn.
  - by intros [= <-].
  - destruct (load_section cfg sec) as [cfg1| |] eqn:E; try discriminate.
    apply IH. by apply (load_section_ok cfg sec).
Qed.

Lemma load_config_ok secs cfg : load_config secs = Returned cfg -> config_ok cfg.
Proof.
  apply load_sections_ok. unfold config_ok, empty_config. cbn.
  refine (conj _ (conj _ (conj _ (conj _ (conj _ (conj _ _))))));
    intros sh; rewrite ?lookup_empty; try (by intros ? [=]); try (by intros [? [=]]).
  split; [set_solver|by intros [? [=]]].
Qed.

(** Every shutter the loader kept has its lock and a lower-case alias. *)
Lemma loaded_shutter_has_lock secs cfg sh hw :
  load_config secs = Returned cfg ->
  _shutters cfg !! sh = Some hw ->
  sh ∈ _shutter_locks cfg /\ lower sh = sh.
Proof.
  intros Hload Hs. destruct (load_config_ok secs cfg Hload) as (Hlocks & Hlow & _).
  split; [apply Hlocks|apply Hlow]; eauto.
Qed.

(** Every shutter of a loaded configuration that passes the fine-tunable
    test of [operate] is [calibrated]. *)
Lemma loaded_fine_tunable_calibrated secs cfg sh :
  load_config secs = Returned cfg ->
  fine_tunable cfg sh = true ->
  exists hw cl off op, calibrated cfg sh hw cl off op.
Proof.
  intros Hload Hft.
  destruct (load_config_ok secs cfg Hload) as (Hlocks & Hlow & Hdom & Hcl & Hoff & Hop & _).
  unfold fine_tunable in Hft.
  apply andb_prop in Hft as [Hft _]. apply andb_prop in Hft as [Hft Hopen].
  apply andb_prop in Hft as [Hclose Hoffset].
  apply bool_decide_eq_true_1 in Hclose as [cl Ecl].
  apply bool_decide_eq_true_1 in Hoffset as [off Eoff].
  apply bool_decide_eq_true_1 in Hopen as [op Eop].
  destruct (Hdom sh) as [hw Ehw]; [eauto|].
  exists hw, cl, off, op. unfold calibrated.
  repeat split; eauto.
  apply Hlocks; eauto.
Qed.

(** C9. A section that gives [offset] and [open] but no [close] is some but
    not all of the three delays; loading it raises nothing and keeps the
    shutter, as a basic one. *)
Theorem partial_delays_load_as_basic :
  exists cfg,
    load_config partial_ini = Returned cfg
    /\ _shutters cfg !! "salon" = Some "hw1"
    /\ fine_tunable cfg "salon" = false
    /\ _shutter_delay_close cfg !! "salon" = None
    /\ _shutter_closed_offset cfg !! "salon" = None
    /\ _shutter_delay_open cfg !! "salon" = None.
Proof.
  eexists. split; [vm_compute; reflexivity|]. repeat split.
Qed.

(** ** Worlds *)

Lemma clamp_id p : 0 <= p <= 100 -> clamp p = p.
Proof.
  intros H. unfold clamp.
  destruct (Z.ltb_spec p 0); [lia|]. destruct (Z.gtb_spec p 100); [lia|]. reflexivity.
Qed.

Lemma clamp_range p : 0 <= clamp p <= 100.
Proof.
  unfold clamp. destruct (Z.ltb_spec p 0).
  - destruct (Z.gtb_spec 0 100); lia.
  - destruct (Z.gtb_spec p 100); lia.
Qed.

Lemma get_current_state_percent_range w sh p :
  get_current_state_percent w sh = Some p -> 0 <= p <= 100.
Proof.
  unfold get_current_state_percent. destruct (_ !! sh) as [s|]; [|discriminate].
  destruct (Z.ltb_spec s 0); [intros [= <-]; lia|].
  destruct (Z.gtb_spec s 100); intros [= <-]; lia.
Qed.

Lemma state_of_percent_spec c sh p :
  0 <= p <= 100 ->
  state_of_percent c sh p = state_for_percent (get_halfway_percent c sh) p.
Proof.
  intros Hr. unfold state_of_percent, state_for_percent.
  destruct (Z.leb_spec p 0), (Z.eqb_spec p 0); try lia; [done|].
  destruct (Z.geb_spec p 100), (Z.eqb_spec p 100); try lia; [done|].
  destruct (decide (Some p = get_halfway_percent c sh)) as [E|E].
  - rewrite !bool_decide_eq_true_2; done.
  - rewrite !bool_decide_eq_false_2; done.
Qed.

(** ** Sleep lengths *)

Lemma nonneg_one_percent x : Qle_bool 0 x = true -> Qle_bool 0 (x / 99) = true.
Proof.
  rewrite !Qle_bool_iff. intros H. apply Qle_shift_div_l; [reflexivity|]. lra.
Qed.

Lemma nonneg_endpoint_delay x y :
  Qle_bool 0 x = true -> Qle_bool 0 y = true -> Qle_bool 0 (x + y + 1) = true.
Proof. rewrite !Qle_bool_iff. lra. Qed.

Lemma nonneg_step_delay off one p inc :
  Qle_bool 0 off = true -> Qle_bool 0 one = true ->
  Qle_bool 0 (step_delay off one p inc) = true.
Proof. intros Hoff Hone. unfold step_delay. by destruct (crosses_boundary p inc). Qed.

Lemma nonneg_first_step_delay off one cur inc :
  Qle_bool 0 (first_step_delay off one cur inc) = true.
Proof.
  unfold first_step_delay, Qlt_bool, _START_MOVING_DELAY.
  set (d := (step_delay off one cur inc - _SEND_COMMAND_DELAY)%Q).
  destruct (Qle_bool d 0) eqn:E; cbn [negb]; [reflexivity|].
  rewrite Qle_bool_iff.
  assert (~ (d <= 0)%Q) by (rewrite <- Qle_bool_iff; congruence). lra.
Qed.

Section Facts.

Context (c : config) (channel : string -> string -> chan_result).

Lemma after_after sh a b e1 e2 w :
  after c sh b e2 (after c sh a e1 w)
  = after c sh (match b with Some _ => b | None => a end) (e1 ++ e2)%list w.
Proof.
  destruct a, b; unfold after; cbn; rewrite ?insert_insert_eq, <- ?app_assoc; reflexivity.
Qed.

Lemma after_nothing sh w : after c sh None [] w = w.
Proof. destruct w; unfold after; cbn. by rewrite app_nil_r. Qed.

Lemma tokens_after sh wr evs w :
  _shutter_thread_tokens (after c sh wr evs w) = _shutter_thread_tokens w.
Proof. by destruct wr. Qed.

Lemma trace_after sh wr evs w : trace (after c sh wr evs w) = (trace w ++ evs)%list.
Proof. by destruct wr. Qed.

(** ** The guarded primitives *)

Lemma sleep_run sh d w :
  Qle_bool 0 d = true -> sleep d w = (Returned tt, after c sh None [Sleep d] w).
Proof. intros H. unfold sleep, Qlt_bool. by rewrite H. Qed.

Lemma send_delay_run w :
  sleep _SEND_COMMAND_DELAY w
  = (Returned tt,
     World (_shutter_thread_tokens w) (_shutter_state w) (_shutter_state_percent w)
           (trace w ++ [Sleep _SEND_COMMAND_DELAY])).
Proof. reflexivity. Qed.

Lemma token_check_run sh t tok w :
  _shutter_thread_tokens w !! sh = Some t ->
  token_is_current sh tok w = (Returned (t =? tok), w).
Proof. intros H. unfold token_is_current. by rewrite H. Qed.

Lemma send_thread_run w sh st cmd hw t tok :
  lower sh = sh -> _shutters c !! sh = Some hw -> sh ∈ _shutter_locks c ->
  _shutter_thread_tokens w !! sh = Some t ->
  _shutter_state_to_command st = Some cmd ->
  channel cmd hw <> LaunchError ->
  _send_command_from_thread c channel sh st tok w
  = (Returned tt, after c sh None (sent (t =? tok) cmd hw) w).
Proof.
  intros Hl Hs Hk Ht Hc Hch.
  unfold _send_command_from_thread, bind, token_is_current. rewrite Ht.
  destruct (t =? tok); cbn [sent].
  - unfold with_lock. rewrite (bool_decide_eq_true_2 _ Hk).
    unfold _send_command. rewrite Hl, Hs, Hc.
    unfold run_channel, bind, emit.
    destruct (channel cmd hw); [|congruence]. unfold ret.
    rewrite send_delay_run. unfold after. cbn.
    rewrite <- app_assoc. reflexivity.
  - by rewrite after_nothing.
Qed.

Lemma update_run w sh p t tok :
  sh ∈ _shutter_locks c ->
  _shutter_thread_tokens w !! sh = Some t ->
  0 <= p <= 100 ->
  _update_state_percent_from_thread c sh p tok w
  = (Returned tt, after c sh (gated (t =? tok) p) (written c (t =? tok) sh p) w).
Proof.
  intros Hk Ht Hp.
  unfold _update_state_percent_from_thread, bind, token_is_current.
  rewrite Ht, (clamp_id _ Hp).
  destruct (t =? tok); cbn [gated written].
  - unfold with_lock. rewrite (bool_decide_eq_true_2 _ Hk).
    unfold bind, set_percent, set_state. cbn. rewrite <- app_assoc. reflexivity.
  - by rewrite after_nothing.
Qed.

(** ** The loop *)

Lemma loop_plan_1 ok sh off one inc start :
  loop_plan c ok sh off one inc start 1 = written c ok sh (start + inc).
Proof.
  unfold loop_plan. cbn. rewrite Z.mul_1_r, !app_nil_r. reflexivity.
Qed.

Lemma loop_plan_S ok sh off one inc start n :
  loop_plan c ok sh off one inc start (S (S n))
  = (written c ok sh (start + inc)
     ++ Sleep (step_delay off one (start + inc) inc)
     :: loop_plan c ok sh off one inc (start + inc) (S n))%list.
Proof.
  unfold loop_plan. rewrite <- cons_seq. cbn [flat_map]. rewrite <- seq_shift.
  cbn [Nat.ltb Nat.leb]. rewrite Z.mul_1_r. rewrite <- app_assoc. cbn [app].
  f_equal. f_equal. rewrite flat_map_concat_map, map_map, <- flat_map_concat_map.
  apply flat_map_ext. intros k.
  replace (start + inc + inc * Z.of_nat k) with (start + inc * Z.of_nat (S k)) by lia.
  reflexivity.
Qed.

Lemma motion_loop_run sh tok t off one inc n :
  sh ∈ _shutter_locks c ->
  _shutter_closed_offset c !! sh = Some off ->
  Qle_bool 0 off = true -> Qle_bool 0 one = true ->
  forall fuel w cur,
  (S n <= fuel)%nat ->
  _shutter_thread_tokens w !! sh = Some t ->
  0 <= cur <= 100 ->
  0 <= cur + inc * Z.of_nat (S n) <= 100 ->
  inc = 1 \/ inc = -1 ->
  motion_loop c fuel sh (cur + inc * Z.of_nat (S n)) tok one inc cur w
  = (Returned (cur + inc * Z.of_nat (S n)),
     after c sh (gated (t =? tok) (cur + inc * Z.of_nat (S n)))
           (loop_plan c (t =? tok) sh off one inc cur (S n)) w).
Proof.
  intros Hk Hoff Hoff0 Hone0.
  induction n as [|n IH]; intros fuel w cur Hfuel Ht Hcur Hdes Hinc.
  - destruct fuel as [|fuel]; [lia|]. cbn [motion_loop]. unfold bind.
    rewrite (update_run w sh (cur + inc) t tok Hk Ht) by lia.
    replace (cur + inc * Z.of_nat 1) with (cur + inc) by lia.
    rewrite Z.eqb_refl. unfold ret. by rewrite loop_plan_1.
  - destruct fuel as [|fuel]; [lia|]. cbn [motion_loop]. unfold bind.
    rewrite (update_run w sh (cur + inc) t tok Hk Ht) by lia.
    destruct (Z.eqb_spec (cur + inc) (cur + inc * Z.of_nat (S (S n)))) as [E|_]; [lia|].
    set (w1 := after c sh _ _ w).
    assert (Ht1 : _shutter_thread_tokens w1 !! sh = Some t)
      by (unfold w1; by rewrite tokens_after).
    assert (Hs : (if crosses_boundary (cur + inc) inc
                  then bind (token_is_current sh tok)
                         (fun _ => bind (as_float (get_closed_offset_delay c sh))
                                        (fun d => sleep d))
                  else bind (token_is_current sh tok) (fun _ => sleep one)) w1
                 = (Returned tt,
                    after c sh None [Sleep (step_delay off one (cur + inc) inc)] w1)).
    { unfold step_delay, get_closed_offset_delay. rewrite Hoff.
      destruct (crosses_boundary (cur + inc) inc); unfold bind;
        rewrite (token_check_run sh t tok w1 Ht1); cbn [as_float]; unfold ret;
        by rewrite (sleep_run sh). }
    unfold bind in Hs. rewrite Hs. clear Hs.
    replace (cur + inc * Z.of_nat (S (S n))) with (cur + inc + inc * Z.of_nat (S n)) by lia.
    rewrite IH; [| lia | by rewrite tokens_after | lia | lia | done].
    unfold w1. rewrite !after_after, loop_plan_S.
    f_equal. by destruct (t =? tok).
Qed.

(** ** The two parts of a move *)

Lemma drive_to_endpoint_run sh hw cl off op d tok t w :
  calibrated c sh hw cl off op ->
  channel (if d <=? 50 then "on" else "off") hw <> LaunchError ->
  _shutter_thread_tokens w !! sh = Some t ->
  drive_to_endpoint c channel sh d tok None w
  = (Returned (endpoint_of d),
     after c sh (gated (t =? tok) (endpoint_of d))
           (endpoint_plan c (t =? tok) sh hw cl off op d) w).
Proof.
  intros (Hl & Hs & Hk & Hcl & Hoff & Hop & Hcl0 & Hoff0 & Hop0) Hch Ht.
  unfold drive_to_endpoint, endpoint_plan, endpoint_of, bind.
  destruct (d <=? 50).
  - rewrite (send_thread_run w sh OPEN "on" hw t tok) by done.
    cbn [get_full_length_delay]. unfold get_closed_offset_delay. rewrite Hop, Hoff. unfold as_float, ret. cbn beta iota.
    rewrite (token_check_run sh t tok) by (by rewrite tokens_after).
    rewrite (sleep_run sh), after_after by (by apply nonneg_endpoint_delay).
    rewrite (update_run _ sh 0 t tok) by (rewrite ?tokens_after; done || lia).
    unfold ret. rewrite after_after. f_equal. f_equal.
    + by destruct (t =? tok).
    + by rewrite <- app_assoc.
  - rewrite (send_thread_run w sh CLOSE "off" hw t tok) by done.
    cbn [get_full_length_delay]. unfold get_closed_offset_delay. rewrite Hcl, Hoff. unfold as_float, ret. cbn beta iota.
    rewrite (token_check_run sh t tok) by (by rewrite tokens_after).
    rewrite (sleep_run sh), after_after by (by apply nonneg_endpoint_delay).
    rewrite (update_run _ sh 100 t tok) by (rewrite ?tokens_after; done || lia).
    unfold ret. rewrite after_after. f_equal. f_equal.
    + by destruct (t =? tok).
    + by rewrite <- app_assoc.
Qed.

Lemma move_from_same_run sh hw cl off op fuel d tok t w :
  calibrated c sh hw cl off op ->
  (forall cmd, channel cmd hw <> LaunchError) ->
  _shutter_thread_tokens w !! sh = Some t ->
  move_from c channel fuel sh d tok d w
  = (Returned tt, after c sh None (resend_plan (t =? tok) hw d) w).
Proof.
  intros (Hl & Hs & Hk & Hcl & Hoff & Hop & _) Hch Ht.
  unfold move_from, resend_plan, bind. rewrite Z.eqb_refl.
  rewrite (token_check_run sh t tok w Ht).
  destruct (Z.eqb_spec d 0) as [->|H0]; [|destruct (Z.eqb_spec d 100) as [->|H100]].
  - rewrite (send_thread_run w sh OPEN "on" hw t tok) by done. reflexivity.
  - unfold ret. rewrite (send_thread_run w sh CLOSE "off" hw t tok) by done. reflexivity.
  - unfold ret. by rewrite after_nothing.
Qed.

Lemma steps_between_pos cur d : cur <> d -> exists n, steps_between cur d = S n.
Proof.
  intros H. unfold steps_between. destruct (Z.to_nat (Z.abs (d - cur))) eqn:E; [lia|eauto].
Qed.

Lemma move_from_run sh hw cl off op fuel d cur tok t w :
  calibrated c sh hw cl off op ->
  (forall cmd, channel cmd hw <> LaunchError) ->
  _shutter_thread_tokens w !! sh = Some t ->
  0 <= cur <= 100 -> 0 <= d <= 100 -> cur <> d ->
  (steps_between cur d <= fuel)%nat ->
  move_from c channel fuel sh d tok cur w
  = (Returned tt,
     after c sh (gated (t =? tok) d) (move_plan c (t =? tok) sh hw cl off op cur d) w).
Proof.
  intros (Hl & Hs & Hk & Hcl & Hoff & Hop & Hcl0 & Hoff0 & Hop0) Hch Ht Hcur Hd Hne Hfuel.
  destruct (steps_between_pos cur d Hne) as [n Hn].
  unfold move_from, move_plan. rewrite Hn.
  destruct (Z.eqb_spec cur d) as [|_]; [done|].
  unfold bind, get_closed_offset_delay. rewrite Hoff.
  destruct (Z.ltb_spec d cur) as [Hlt|Hge]; cbn [get_full_length_delay].
  - rewrite Hop. cbn [as_float]. unfold ret at 1.
    assert (Hfirst :
      (if crosses_boundary cur (-1)
       then bind (ret off) (fun offset => ret (offset - _SEND_COMMAND_DELAY)%Q)
       else ret (op / 99 - _SEND_COMMAND_DELAY)%Q) w
      = (Returned (step_delay off (op / 99)%Q cur (-1) - _SEND_COMMAND_DELAY)%Q, w)).
    { unfold step_delay. by destruct (crosses_boundary cur (-1)). }
    unfold bind in Hfirst. rewrite Hfirst. clear Hfirst.
    rewrite (send_thread_run w sh OPEN "on" hw t tok) by done.
    rewrite (token_check_run sh t tok) by (by rewrite tokens_after).
    rewrite (sleep_run sh), after_after by apply nonneg_first_step_delay.
    assert (Ed : d = cur + -1 * Z.of_nat (S n)) by (unfold steps_between in Hn; lia).
    rewrite Ed at 1.
    rewrite (motion_loop_run sh tok t off (op / 99)%Q (-1) n Hk Hoff Hoff0
               (nonneg_one_percent op Hop0));
      [| lia | by rewrite tokens_after | lia | lia | by right].
    rewrite <- Ed. rewrite after_after.
    rewrite (token_check_run sh t tok) by (by rewrite tokens_after).
    destruct ((d >? 0) && (d <? 100)) eqn:Emid.
    + rewrite (send_thread_run _ sh STOP "pause" hw t tok) by (rewrite ?tokens_after; done).
      rewrite after_after.
      replace ((0 <? d) && (d <? 100)) with true by (rewrite <- Emid; f_equal; lia).
      unfold first_step_delay. f_equal. f_equal.
      * by destruct (t =? tok).
      * by rewrite <- !app_assoc.
    + replace ((0 <? d) && (d <? 100)) with false by (rewrite <- Emid; f_equal; lia).
      unfold ret, first_step_delay. f_equal. f_equal.
      * by destruct (t =? tok).
      * by rewrite <- !app_assoc, app_nil_r.
  - rewrite Hcl. cbn [as_float]. unfold ret at 1.
    assert (Hfirst :
      (if crosses_boundary cur 1
       then bind (ret off) (fun offset => ret (offset - _SEND_COMMAND_DELAY)%Q)
       else ret (cl / 99 - _SEND_COMMAND_DELAY)%Q) w
      = (Returned (step_delay off (cl / 99)%Q cur 1 - _SEND_COMMAND_DELAY)%Q, w)).
    { unfold step_delay. by destruct (crosses_boundary cur 1). }
    unfold bind in Hfirst. rewrite Hfirst. clear Hfirst.
    rewrite (send_thread_run w sh CLOSE "off" hw t tok) by done.
    rewrite (token_check_run sh t tok) by (by rewrite tokens_after).
    rewrite (sleep_run sh), after_after by apply nonneg_first_step_delay.
    assert (Ed : d = cur + 1 * Z.of_nat (S n)) by (unfold steps_between in Hn; lia).
    rewrite Ed at 1.
    rewrite (motion_loop_run sh tok t off (cl / 99)%Q 1 n Hk Hoff Hoff0
               (nonneg_one_percent cl Hcl0));
      [| lia | by rewrite tokens_after | lia | lia | by left].
    rewrite <- Ed. rewrite after_after.
    rewrite (token_check_run sh t tok) by (by rewrite tokens_after).
    destruct ((d >? 0) && (d <? 100)) eqn:Emid.
    + rewrite (send_thread_run _ sh STOP "pause" hw t tok) by (rewrite ?tokens_after; done).
      rewrite after_after.
      replace ((0 <? d) && (d <? 100)) with true by (rewrite <- Emid; f_equal; lia).
      unfold first_step_delay. f_equal. f_equal.
      * by destruct (t =? tok).
      * by rewrite <- !app_assoc.
    + replace ((0 <? d) && (d <? 100)) with false by (rewrite <- Emid; f_equal; lia).
      unfold ret, first_step_delay. f_equal. f_equal.
      * by destruct (t =? tok).
      * by rewrite <- !app_assoc, app_nil_r.
Qed.

Lemma move_known_run fuel sh d tok cur w :
  get_current_state_percent w sh = Some cur ->
  _move_to_state_percent c channel fuel sh d tok w
  = move_from c channel fuel sh (clamp d) tok cur w.
Proof.
  intros H. unfold _move_to_state_percent, bind, read_current_state_percent.
  rewrite H. cbn [drive_to_endpoint]. unfold ret.
  by destruct (move_from c channel fuel sh (clamp d) tok cur w) as [[] ?].
Qed.

Lemma move_unknown_run sh hw cl off op fuel d tok t w :
  calibrated c sh hw cl off op ->
  (forall cmd, channel cmd hw <> LaunchError) ->
  _shutter_thread_tokens w !! sh = Some t ->
  get_current_state_percent w sh = None ->
  _move_to_state_percent c channel fuel sh d tok w
  = move_from c channel fuel sh (clamp d) tok (endpoint_of (clamp d))
      (after c sh (gated (t =? tok) (endpoint_of (clamp d)))
             (endpoint_plan c (t =? tok) sh hw cl off op (clamp d)) w).
Proof.
  intros Hc Hch Ht H. unfold _move_to_state_percent, bind, read_current_state_percent.
  rewrite H. rewrite (drive_to_endpoint_run sh hw cl off op (clamp d) tok t w) by done.
  by destruct (move_from _ _ _ _ _ _ _ _) as [[] ?].
Qed.

Lemma endpoint_of_clamp d : endpoint_of (clamp d) = endpoint_of d.
Proof.
  unfold endpoint_of, clamp.
  destruct (Z.ltb_spec d 0); [destruct (Z.gtb_spec 0 100)|destruct (Z.gtb_spec d 100)];
    repeat match goal with |- context [?a <=? ?b] => destruct (Z.leb_spec a b) end; lia.
Qed.

Lemma endpoint_of_range d : 0 <= endpoint_of d <= 100.
Proof. unfold endpoint_of. destruct (d <=? 50); lia. Qed.

(** ** Which commands a plan holds *)

Lemma in_sent_iff ok cmd cmd' hw hw' :
  In (Cmd cmd hw) (sent ok cmd' hw') <-> ok = true /\ cmd' = cmd /\ hw' = hw.
Proof.
  destruct ok; cbn; split.
  - intros [[= -> ->]|[|[]]]; [done|discriminate].
  - intros (_ & -> & ->). by left.
  - intros [].
  - intros [[=] _].
Qed.

Lemma not_in_written ok sh p cmd hw : ~ In (Cmd cmd hw) (written c ok sh p).
Proof. destruct ok; cbn; intuition discriminate. Qed.

Lemma not_in_loop_plan ok sh off one inc start n cmd hw :
  ~ In (Cmd cmd hw) (loop_plan c ok sh off one inc start n).
Proof.
  unfold loop_plan. rewrite in_flat_map. intros (k & _ & Hin).
  apply in_app_or in Hin as [Hin|Hin].
  - by apply not_in_written in Hin.
  - destruct (k <? n)%nat; cbn in Hin; intuition discriminate.
Qed.

Lemma pause_in_move_plan ok sh hw cl off op cur d :
  In (Cmd "pause" hw) (move_plan c ok sh hw cl off op cur d)
  <-> (0 < d < 100 /\ ok = true).
Proof.
  unfold move_plan. rewrite !in_app_iff, in_sent_iff. split.
  - intros [(_ & E & _)|[[E|[]]|[E|E]]].
    + destruct (d <? cur); discriminate.
    + discriminate.
    + by apply not_in_loop_plan in E.
    + destruct (Z.ltb_spec 0 d), (Z.ltb_spec d 100); cbn in E; try done.
      apply in_sent_iff in E as (-> & _). split; [lia|done].
  - intros (Hd & ->). right; right; right.
    destruct (Z.ltb_spec 0 d), (Z.ltb_spec d 100); try lia. cbn. by left.
Qed.

Lemma pause_not_in_endpoint_plan ok sh hw cl off op d :
  ~ In (Cmd "pause" hw) (endpoint_plan c ok sh hw cl off op d).
Proof.
  unfold endpoint_plan. rewrite !in_app_iff, in_sent_iff.
  intros [(_ & E & _)|[[E|[]]|E]].
  - destruct (d <=? 50); discriminate.
  - discriminate.
  - by apply not_in_written in E.
Qed.

(** ** [operate] *)

Lemma send_command_run sh st cmd hw w :
  lower sh = sh -> _shutters c !! sh = Some hw ->
  _shutter_state_to_command st = Some cmd ->
  _send_command c channel sh st w
  = match channel cmd hw with
    | Exited _ =>
        (Returned tt,
         World (_shutter_thread_tokens w) (_shutter_state w) (_shutter_state_percent w)
               (trace w ++ [Cmd cmd hw; Sleep _SEND_COMMAND_DELAY]))
    | LaunchError =>
        (Raised OSError,
         World (_shutter_thread_tokens w) (_shutter_state w) (_shutter_state_percent w)
               (trace w ++ [Cmd cmd hw]))
    end.
Proof.
  intros Hl Hs Hc. unfold _send_command. rewrite Hl, Hs, Hc.
  unfold run_channel, bind, emit.
  destruct (channel cmd hw); [|reflexivity]. unfold ret.
  rewrite send_delay_run. cbn. by rewrite <- app_assoc.
Qed.

(** The world once [operate] registered its token. *)
Lemma operate_enter raw st half now hw w :
  _shutters c !! lower raw = Some hw ->
  lower raw ∈ _shutter_locks c ->
  operate c channel raw st half now w
  = let sh := lower raw in
    let k := minted (_shutter_thread_tokens w !! sh) now in
    let w1 := World (<[sh := k]> (_shutter_thread_tokens w)) (_shutter_state w)
                    (_shutter_state_percent w) (trace w) in
    if synchronous c sh st then
      bind (set_state sh st) (fun _ => bind (_send_command c channel sh st) (fun _ => ret true)) w1
    else if fine_tunable c sh then
      (Returned true,
       World (<[sh := k]> (_shutter_thread_tokens w)) (_shutter_state w)
             (_shutter_state_percent w)
             (trace w ++ [Spawn sh
                            match st with
                            | OPEN => Some 0
                            | CLOSE => Some 100
                            | HALF => match half with
                                      | None => get_halfway_percent c sh
                                      | Some _ => half
                                      end
                            | STOP => half
                            end k]))
    else (Returned false, w1).
Proof.
  intros Hs Hk. unfold operate, with_lock. rewrite Hs.
  rewrite bool_decide_eq_true_2 by eauto. rewrite (bool_decide_eq_true_2 _ Hk).
  cbn [negb]. unfold synchronous, token_or_zero, set_token, minted.
  unfold bind at 1 2. cbn beta iota zeta.
  destruct (fine_tunable c (lower raw)), st; try reflexivity;
    destruct half; reflexivity.
Qed.

Lemma synchronous_command sh st :
  synchronous c sh st = true -> exists cmd, _shutter_state_to_command st = Some cmd.
Proof.
  unfold synchronous. destruct (fine_tunable c sh), st; try discriminate; cbn; eauto.
Qed.

Lemma operate_token raw st half now hw w :
  _shutters c !! lower raw = Some hw ->
  lower raw ∈ _shutter_locks c ->
  _shutter_thread_tokens (snd (operate c channel raw st half now w)) !! lower raw
  = Some (minted (_shutter_thread_tokens w !! lower raw) now).
Proof.
  intros Hs Hk. rewrite (operate_enter raw st half now hw w Hs Hk). cbn zeta.
  destruct (synchronous c (lower raw) st) eqn:Esync.
  - destruct (synchronous_command _ _ Esync) as [cmd Hcmd].
    unfold bind, set_state. cbn beta iota.
    rewrite (send_command_run (lower raw) st cmd hw) by (done || apply lower_idem).
    destruct (channel cmd hw); cbn; by rewrite lookup_insert_eq.
  - destruct (fine_tunable c (lower raw)); cbn; by rewrite lookup_insert_eq.
Qed.

Lemma minted_le cur now : minted cur now <= now.
Proof. unfold minted. destruct (_ =? _); lia. Qed.

Lemma minted_differs t now : minted (Some t) now <> t.
Proof. unfold minted. cbn. destruct (Z.eqb_spec t now); lia. Qed.

Lemma minted_later t now : t < now -> minted (Some t) now = now.
Proof. intros H. unfold minted. cbn. destruct (Z.eqb_spec t now); lia. Qed.

Lemma operate_all_cons raw st half now rest hw w :
  _shutters c !! lower raw = Some hw ->
  lower raw ∈ _shutter_locks c ->
  fst (operate_all c channel raw ((st, half, now) :: rest) w)
  = minted (_shutter_thread_tokens w !! lower raw) now
    :: fst (operate_all c channel raw rest (snd (operate c channel raw st half now w))).
Proof.
  intros Hs Hk. cbn [operate_all].
  destruct (operate_all c channel raw rest _) as [issued w2] eqn:E.
  by rewrite (operate_token raw st half now hw w Hs Hk).
Qed.

Lemma differs_cons previous t rest :
  differs_from_previous previous (t :: rest)
  <-> previous <> Some t /\ differs_from_previous (Some t) rest.
Proof. reflexivity. Qed.

(** ** Threads leave the token registry alone *)

Lemma keeps_ret {A} (a : A) : keeps_tokens (ret a).
Proof. by intros w. Qed.

Lemma keeps_raise {A} e : keeps_tokens (@raise A e).
Proof. by intros w. Qed.

Lemma keeps_bind {A B} (m : M A) (k : A -> M B) :
  keeps_tokens m -> (forall a, keeps_tokens (k a)) -> keeps_tokens (bind m k).
Proof.
  intros Hm Hk w. unfold bind. specialize (Hm w).
  destruct (m w) as [[a|e|] w1]; cbn in *; [|done..].
  by rewrite Hk.
Qed.

Lemma keeps_emit e : keeps_tokens (emit e).
Proof. by intros w. Qed.

Lemma keeps_sleep d : keeps_tokens (sleep d).
Proof. unfold sleep. destruct (Qlt_bool d 0); [apply keeps_raise|apply keeps_emit]. Qed.

Lemma keeps_token_is_current sh tok : keeps_tokens (token_is_current sh tok).
Proof. intros w. unfold token_is_current. by destruct (_ !! sh). Qed.

Lemma keeps_as_float o : keeps_tokens (as_float o).
Proof. destruct o; [apply keeps_ret|apply keeps_raise]. Qed.

Lemma keeps_with_lock {A} sh (m : M A) : keeps_tokens m -> keeps_tokens (with_lock c sh m).
Proof. intros H. unfold with_lock. destruct (bool_decide _); [done|apply keeps_raise]. Qed.

Lemma keeps_send_command sh st : keeps_tokens (_send_command c channel sh st).
Proof.
  unfold _send_command. destruct (_ !! _); [|apply keeps_raise].
  destruct (_shutter_state_to_command st); [|apply keeps_raise].
  apply keeps_bind; [|intros; apply keeps_sleep].
  unfold run_channel. apply keeps_bind; [apply keeps_emit|intros _].
  destruct (channel _ _); [apply keeps_ret|apply keeps_raise].
Qed.

Lemma keeps_send_from_thread sh st tok :
  keeps_tokens (_send_command_from_thread c channel sh st tok).
Proof.
  unfold _send_command_from_thread.
  apply keeps_bind; [apply keeps_token_is_current|intros [|]].
  - apply keeps_with_lock, keeps_send_command.
  - apply keeps_ret.
Qed.

Lemma keeps_update sh p tok :
  keeps_tokens (_update_state_percent_from_thread c sh p tok).
Proof.
  unfold _update_state_percent_from_thread.
  apply keeps_bind; [apply keeps_token_is_current|intros [|]]; [|apply keeps_ret].
  apply keeps_with_lock, keeps_bind; [|intros _]; by intros w.
Qed.

Lemma keeps_motion_loop fuel sh d tok one inc : forall cur,
  keeps_tokens (motion_loop c fuel sh d tok one inc cur).
Proof.
  induction fuel as [|fuel IH]; intros cur; cbn [motion_loop]; [by intros w|].
  apply keeps_bind; [apply keeps_update|intros _].
  destruct (_ =? d); [apply keeps_ret|].
  apply keeps_bind; [|intros _; apply IH].
  destruct (crosses_boundary _ _);
    repeat (apply keeps_bind; [|intros ?]);
    auto using keeps_token_is_current, keeps_as_float, keeps_sleep.
Qed.

Ltac keeps :=
  repeat first
    [ apply keeps_send_from_thread | apply keeps_update | apply keeps_motion_loop
    | apply keeps_token_is_current | apply keeps_as_float | apply keeps_sleep
    | apply keeps_ret
    | match goal with |- keeps_tokens (if ?b then _ else _) => destruct b end
    | apply keeps_bind; [|intros ?] ].

(** A motion thread never writes [_shutter_thread_tokens], however it ends. *)
Lemma thread_keeps_tokens fuel sh d tok :
  keeps_tokens (_move_to_state_percent c channel fuel sh d tok).
Proof.
  unfold _move_to_state_percent.
  apply keeps_bind; [by intros w|intros known].
  apply keeps_bind; [|intros cur].
  - unfold drive_to_endpoint. destruct known; keeps.
  - unfold move_from. keeps.
Qed.

(** ** Threads write percent and state together *)

Lemma well_paired_app evs1 evs2 :
  well_paired c evs1 -> well_paired c evs2 -> well_paired c (evs1 ++ evs2).
Proof.
  induction 1; intros H2; cbn; [done| |].
  - apply paired_write; auto.
  - apply paired_other; auto.
Qed.

Lemma pairs_ret {A} (a : A) : pairs_writes c (ret a).
Proof. intros w. exists []. cbn. split; [by rewrite app_nil_r|constructor]. Qed.

Lemma pairs_raise {A} e : pairs_writes c (@raise A e).
Proof. intros w. exists []. cbn. split; [by rewrite app_nil_r|constructor]. Qed.

Lemma pairs_bind {A B} (m : M A) (k : A -> M B) :
  pairs_writes c m -> (forall a, pairs_writes c (k a)) -> pairs_writes c (bind m k).
Proof.
  intros Hm Hk w. unfold bind. destruct (Hm w) as (evs1 & E1 & P1).
  destruct (m w) as [[a|e|] w1]; cbn in *; eauto.
  destruct (Hk a w1) as (evs2 & E2 & P2).
  exists (evs1 ++ evs2)%list. split; [by rewrite E2, E1, app_assoc|by apply well_paired_app].
Qed.

Lemma pairs_emit e :
  (forall shutter p, e <> SetPercent shutter p) -> pairs_writes c (emit e).
Proof. intros He w. exists [e]. split; [done|]. apply paired_other; [done|constructor]. Qed.

Lemma pairs_sleep d : pairs_writes c (sleep d).
Proof. unfold sleep. destruct (Qlt_bool d 0); [apply pairs_raise|by apply pairs_emit]. Qed.

Lemma pairs_token_is_current sh tok : pairs_writes c (token_is_current sh tok).
Proof.
  intros w. exists []. unfold token_is_current.
  destruct (_ !! sh); cbn; (split; [by rewrite app_nil_r|constructor]).
Qed.

Lemma pairs_as_float o : pairs_writes c (as_float o).
Proof. destruct o; [apply pairs_ret|apply pairs_raise]. Qed.

Lemma pairs_with_lock {A} sh (m : M A) : pairs_writes c m -> pairs_writes c (with_lock c sh m).
Proof. intros H. unfold with_lock. destruct (bool_decide _); [done|apply pairs_raise]. Qed.

Lemma pairs_send_from_thread sh st tok :
  pairs_writes c (_send_command_from_thread c channel sh st tok).
Proof.
  unfold _send_command_from_thread.
  apply pairs_bind; [apply pairs_token_is_current|intros [|]]; [|apply pairs_ret].
  apply pairs_with_lock. unfold _send_command.
  destruct (_ !! _); [|apply pairs_raise].
  destruct (_shutter_state_to_command st); [|apply pairs_raise].
  apply pairs_bind; [|intros; apply pairs_sleep].
  unfold run_channel. apply pairs_bind; [by apply pairs_emit|intros _].
  destruct (channel _ _); [apply pairs_ret|apply pairs_raise].
Qed.

Lemma pairs_update sh p tok :
  pairs_writes c (_update_state_percent_from_thread c sh p tok).
Proof.
  unfold _update_state_percent_from_thread.
  apply pairs_bind; [apply pairs_token_is_current|intros [|]]; [|apply pairs_ret].
  apply pairs_with_lock. intros w.
  exists [SetPercent sh (clamp p);
          SetState sh (state_for_percent (get_halfway_percent c sh) (clamp p))].
  split.
  - unfold bind, set_percent, set_state. cbn.
    by rewrite <- app_assoc, (state_of_percent_spec c sh (clamp p) (clamp_range p)).
  - apply paired_write; [apply clamp_range|constructor].
Qed.

Lemma pairs_motion_loop fuel sh d tok one inc : forall cur,
  pairs_writes c (motion_loop c fuel sh d tok one inc cur).
Proof.
  induction fuel as [|fuel IH]; intros cur; cbn [motion_loop].
  - intros w. exists []. cbn. split; [by rewrite app_nil_r|constructor].
  - apply pairs_bind; [apply pairs_update|intros _].
    destruct (_ =? d); [apply pairs_ret|].
    apply pairs_bind; [|intros _; apply IH].
    destruct (crosses_boundary _ _);
      repeat (apply pairs_bind; [|intros ?]);
      auto using pairs_token_is_current, pairs_as_float, pairs_sleep.
Qed.

Ltac pairs :=
  repeat first
    [ apply pairs_send_from_thread | apply pairs_update | apply pairs_motion_loop
    | apply pairs_token_is_current | apply pairs_as_float | apply pairs_sleep
    | apply pairs_ret
    | match goal with |- pairs_writes _ (if ?b then _ else _) => destruct b end
    | apply pairs_bind; [|intros ?] ].

Lemma thread_pairs_writes fuel sh d tok :
  pairs_writes c (_move_to_state_percent c channel fuel sh d tok).
Proof.
  unfold _move_to_state_percent.
  apply pairs_bind; [|intros known].
  { intros w. exists []. cbn. split; [by rewrite app_nil_r|constructor]. }
  apply pairs_bind; [|intros cur].
  - unfold drive_to_endpoint. destruct known; pairs.
  - unfold move_from. pairs.
Qed.

(** ** The claims *)



(** When the loop of a move ends at the target, a thread with token [tok]
    sends STOP exactly when the target is strictly between 0 and 100 and
    [tok] is the registered token [t]. *)
Lemma stop_gated sh hw cl off op fuel d tok t w :
  calibrated c sh hw cl off op ->
  (forall cmd, channel cmd hw <> LaunchError) ->
  _shutter_thread_tokens w !! sh = Some t ->
  default (endpoint_of d) (get_current_state_percent w sh) <> clamp d ->
  (steps_between (default (endpoint_of d) (get_current_state_percent w sh)) (clamp d)
   <= fuel)%nat ->
  exists w' evs,
    _move_to_state_percent c channel fuel sh d tok w = (Returned tt, w')
    /\ trace w' = (trace w ++ evs)%list
    /\ (In (Cmd "pause" hw) evs <-> (0 < clamp d < 100 /\ t = tok)).
Proof.
  intros Hc Hch Ht Hne Hfuel.
  destruct (get_current_state_percent w sh) as [cur|] eqn:Hcur; cbn [default] in *.
  - rewrite (move_known_run fuel sh d tok cur w Hcur).
    rewrite (move_from_run sh hw cl off op fuel (clamp d) cur tok t w Hc Hch Ht
               (get_current_state_percent_range _ _ _ Hcur) (clamp_range d) Hne Hfuel).
    eexists _, _. split; [reflexivity|]. split; [by rewrite trace_after|].
    rewrite pause_in_move_plan, Z.eqb_eq. reflexivity.
  - rewrite (move_unknown_run sh hw cl off op fuel d tok t w Hc Hch Ht Hcur).
    rewrite endpoint_of_clamp.
    rewrite (move_from_run sh hw cl off op fuel (clamp d) (endpoint_of d) tok t);
      [| done | done | by rewrite tokens_after | apply endpoint_of_range
       | apply clamp_range | done | done].
    rewrite after_after.
    eexists _, _. split; [reflexivity|]. split; [by rewrite trace_after|].
    rewrite in_app_iff, pause_in_move_plan, Z.eqb_eq. split; [|tauto].
    intros [E|E]; [|done]. by apply pause_not_in_endpoint_plan in E.
Qed.

(** C2. When the loop of a move by the thread holding the registered token
    ends at the target, STOP is sent exactly when the target is strictly
    between 0 and 100; a target of 0 or 100 sends no STOP.  The move may
    start from a known percent or, the percent being unknown, from the end
    of travel the thread first drives to. *)
Theorem stop_sent_iff sh hw cl off op fuel d tok w :
  calibrated c sh hw cl off op ->
  (forall cmd, channel cmd hw <> LaunchError) ->
  _shutter_thread_tokens w !! sh = Some tok ->
  default (endpoint_of d) (get_current_state_percent w sh) <> clamp d ->
  (steps_between (default (endpoint_of d) (get_current_state_percent w sh)) (clamp d)
   <= fuel)%nat ->
  exists w' evs,
    _move_to_state_percent c channel fuel sh d tok w = (Returned tt, w')
    /\ trace w' = (trace w ++ evs)%list
    /\ (In (Cmd "pause" hw) evs <-> 0 < clamp d < 100).
Proof.
  intros Hc Hch Ht Hne Hfuel.
  destruct (stop_gated sh hw cl off op fuel d tok tok w Hc Hch Ht Hne Hfuel)
    as (w' & evs & Hrun & Htrace & Hiff).
  exists w', evs. split; [exact Hrun|]. split; [exact Htrace|].
  rewrite Hiff. tauto.
Qed.

(** When the known percent already equals the target a thread runs no loop
    and leaves Position State as it was; what it sends again depends on the
    target, and on its token [tok] being the registered one [t]. *)
Lemma at_target_gated sh hw cl off op fuel d tok t w :
  calibrated c sh hw cl off op ->
  (forall cmd, channel cmd hw <> LaunchError) ->
  _shutter_thread_tokens w !! sh = Some t ->
  get_current_state_percent w sh = Some (clamp d) ->
  exists w',
    _move_to_state_percent c channel fuel sh d tok w = (Returned tt, w')
    /\ trace w'
       = (trace w
          ++ if negb (t =? tok) then []
             else if clamp d =? 0 then [Cmd "on" hw; Sleep _SEND_COMMAND_DELAY]
             else if clamp d =? 100 then [Cmd "off" hw; Sleep _SEND_COMMAND_DELAY]
             else [])%list
    /\ _shutter_state_percent w' = _shutter_state_percent w
    /\ _shutter_state w' = _shutter_state w.
Proof.
  intros Hc Hch Ht Hcur.
  rewrite (move_known_run fuel sh d tok (clamp d) w Hcur).
  rewrite (move_from_same_run sh hw cl off op fuel (clamp d) tok t w Hc Hch Ht).
  eexists. split; [reflexivity|]. cbn. repeat split.
  f_equal. unfold resend_plan, sent.
  destruct (t =? tok), (clamp d =? 0), (clamp d =? 100); reflexivity.
Qed.

(** C6. When the known percent already equals the target, the thread
    holding the registered token runs no loop and leaves the stored percent
    (and state) as it was: all it does is send OPEN again for a target of 0,
    CLOSE again for a target of 100, and nothing for any other target. *)
Theorem already_at_target sh hw cl off op fuel d tok w :
  calibrated c sh hw cl off op ->
  (forall cmd, channel cmd hw <> LaunchError) ->
  _shutter_thread_tokens w !! sh = Some tok ->
  get_current_state_percent w sh = Some (clamp d) ->
  exists w',
    _move_to_state_percent c channel fuel sh d tok w = (Returned tt, w')
    /\ trace w'
       = (trace w
          ++ if clamp d =? 0 then [Cmd "on" hw; Sleep _SEND_COMMAND_DELAY]
             else if clamp d =? 100 then [Cmd "off" hw; Sleep _SEND_COMMAND_DELAY]
             else [])%list
    /\ _shutter_state_percent w' = _shutter_state_percent w
    /\ _shutter_state w' = _shutter_state w.
Proof.
  intros Hc Hch Ht Hcur.
  destruct (at_target_gated sh hw cl off op fuel d tok tok w Hc Hch Ht Hcur)
    as (w' & Hrun & Htrace & Hpercent & Hstate).
  rewrite Z.eqb_refl in Htrace.
  exists w'. split; [exact Hrun|]. split; [exact Htrace|]. split; assumption.
Qed.



(** C10. Whatever a motion thread logs, each percent write in it is followed
    at once by the write of the discrete state that goes with the new
    percent: OPEN at 0, CLOSE at 100, HALF at the halfway percent, STOP
    anywhere else.  A percent update by a thread holding the registered
    token stores the clamped percent with that state, so right after it
    [get_current_state] is a function of [get_current_state_percent] and the
    halfway percent. *)
Theorem percent_write_sets_state :
  (forall fuel sh d tok,
     pairs_writes c (_move_to_state_percent c channel fuel sh d tok))
  /\ (forall sh p tok w,
        sh ∈ _shutter_locks c ->
        _shutter_thread_tokens w !! sh = Some tok ->
        exists w' p',
          _update_state_percent_from_thread c sh p tok w = (Returned tt, w')
          /\ trace w'
             = (trace w
                ++ [SetPercent sh p';
                    SetState sh (state_for_percent (get_halfway_percent c sh) p')])%list
          /\ get_current_state_percent w' sh = Some p'
          /\ p' = clamp p
          /\ get_current_state w' sh = state_for_percent (get_halfway_percent c sh) p').
Proof.
  split; [apply thread_pairs_writes|].
  intros sh p tok w Hk Ht. pose proof (clamp_range p) as Hr.
  pose proof (state_of_percent_spec c sh (clamp p) Hr) as Es.
  exists (after c sh (Some (clamp p)) (written c true sh (clamp p)) w), (clamp p).
  split.
  - unfold _update_state_percent_from_thread, bind, token_is_current.
    rewrite Ht, Z.eqb_refl. unfold with_lock. rewrite (bool_decide_eq_true_2 _ Hk).
    unfold bind, set_percent, set_state, after. cbn. by rewrite <- app_assoc.
  - cbn. rewrite Es. repeat split.
    + unfold get_current_state_percent. cbn. rewrite lookup_insert_eq.
      destruct (Z.ltb_spec (clamp p) 0); [lia|].
      destruct (Z.gtb_spec (clamp p) 100); [lia|]. reflexivity.
    + unfold get_current_state. cbn. by rewrite lookup_insert_eq.
Qed.

(** C8. On a basic shutter [operate(shutter, HALF)] returns [False]; it
    sends no command and writes no Position State. *)
Theorem operate_half_basic raw half now hw w :
  _shutters c !! lower raw = Some hw ->
  lower raw ∈ _shutter_locks c ->
  fine_tunable c (lower raw) = false ->
  exists w',
    operate c channel raw HALF half now w = (Returned false, w')
    /\ trace w' = trace w
    /\ _shutter_state w' = _shutter_state w
    /\ _shutter_state_percent w' = _shutter_state_percent w.
Proof.
  intros Hs Hk Hf. rewrite (operate_enter raw HALF half now hw w Hs Hk).
  unfold synchronous. rewrite Hf. cbn. eauto.
Qed.

(** C3 (amended). For a shutter id that is not configured [operate] raises
    [ValueError] instead of returning a boolean; nothing is sent, written or
    registered. *)
Theorem operate_unknown_raises raw st half now w :
  _shutters c !! lower raw = None ->
  operate c channel raw st half now w = (Raised ValueError, w).
Proof.
  intros H. unfold operate. rewrite H.
  rewrite bool_decide_eq_false_2 by (intros [? ?]; discriminate). reflexivity.
Qed.

(** C4 (amended). A command [operate] sends itself (STOP on a fine-tunable
    shutter, OPEN, CLOSE or STOP on a basic one) is written to
    [lastCommandedState] before it is sent.  Whatever exit status the
    channel process gives, [operate] returns [True]; if the process cannot
    be started the exception reaches the caller.  Either way the commanded
    state stays written and the percent is untouched. *)
Theorem synchronous_dispatch_writes_first raw st half now hw w :
  _shutters c !! lower raw = Some hw ->
  lower raw ∈ _shutter_locks c ->
  synchronous c (lower raw) st = true ->
  exists cmd w',
    _shutter_state_to_command st = Some cmd
    /\ operate c channel raw st half now w
       = (match channel cmd hw with
          | Exited _ => Returned true
          | LaunchError => Raised OSError
          end, w')
    /\ _shutter_state w' = <[lower raw := st]> (_shutter_state w)
    /\ _shutter_state_percent w' = _shutter_state_percent w.
Proof.
  intros Hs Hk Hsync. destruct (synchronous_command _ _ Hsync) as [cmd Hcmd].
  exists cmd. rewrite (operate_enter raw st half now hw w Hs Hk). cbn zeta.
  rewrite Hsync. unfold bind, set_state. cbn beta iota.
  rewrite (send_command_run (lower raw) st cmd hw) by (done || apply lower_idem).
  destruct (channel cmd hw); eexists; (split; [done|]); cbn; auto.
Qed.

(** C5 (amended). Over any sequence of [operate] calls on one shutter every
    call registers a token, and that token differs from the one registered
    when it was made.  The tokens increase strictly when the clock readings
    of the calls do; two calls within one millisecond get [t] and then
    [t - 1]. *)
Theorem tokens_differ_and_follow_clock raw hw calls w :
  _shutters c !! lower raw = Some hw ->
  lower raw ∈ _shutter_locks c ->
  length (fst (operate_all c channel raw calls w)) = length calls
  /\ differs_from_previous (_shutter_thread_tokens w !! lower raw)
                           (fst (operate_all c channel raw calls w))
  /\ (increasing (map snd calls) -> increasing (fst (operate_all c channel raw calls w))).
Proof.
  intros Hs Hk. revert w. induction calls as [|[[st half] now] rest IH]; intros w.
  - cbn. auto.
  - rewrite (operate_all_cons raw st half now rest hw w Hs Hk).
    set (w1 := snd (operate c channel raw st half now w)).
    assert (Ht1 : _shutter_thread_tokens w1 !! lower raw
                  = Some (minted (_shutter_thread_tokens w !! lower raw) now))
      by apply (operate_token raw st half now hw w Hs Hk).
    destruct (IH w1) as (Hlen & Hdiff & Hinc). rewrite Ht1 in Hdiff.
    split; [cbn; by rewrite Hlen|]. split.
    + apply differs_cons. split; [|exact Hdiff].
      destruct (_shutter_thread_tokens w !! lower raw) as [t|]; [|done].
      intros [= E]. symmetry in E. by apply minted_differs in E.
    + intros Hsorted. destruct rest as [|[[st2 half2] now2] rest2]; [done|].
      cbn [map snd increasing] in Hsorted. destruct Hsorted as [Hlt Hsorted].
      specialize (Hinc Hsorted).
      rewrite (operate_all_cons raw st2 half2 now2 rest2 hw w1 Hs Hk) in Hinc |- *.
      rewrite Ht1 in *.
      pose proof (minted_le (_shutter_thread_tokens w !! lower raw) now).
      split; [|exact Hinc]. rewrite minted_later; lia.
Qed.

End Facts.

(** ** The claims on the example installation *)

(** Membership in a concrete lock set, by evaluation. *)
Ltac holds_lock :=
  match goal with
  | |- ?P => apply (bool_decide_eq_true_1 P); vm_compute; reflexivity
  end.

Lemma salon_calibrated : calibrated cfg0 "salon" "hw1" 12 2 10.
Proof.
  unfold calibrated.
  split; [reflexivity|]. split; [vm_compute; reflexivity|].
  split; [holds_lock|].
  repeat split; vm_compute; reflexivity.
Defined.

Lemma channel_up_launches hw cmd : channel_up cmd hw <> LaunchError.
Proof. discriminate. Defined.


(** [operate(salon, HALF, 12)] twice in a row at 10%: the thread of the
    first call, run once the second call has been served, takes the two
    steps to 12% and sleeps for them, but writes nothing. *)
Example superseded_move_writes_nothing :
  let w := issued_twice HALF (Some 12) (salon_at 10 1) in
  let run := run_thread cfg0 channel_up 5 "salon" (Some 12) 1000 w in
  trace w = [Spawn "salon" (Some 12) 1000; Spawn "salon" (Some 12) 1001]
  /\ fst run = Returned tt
  /\ trace (snd run)
     = (trace w ++ [Sleep (first_step_delay 2 (12 / 99) 10 1); Sleep (12 / 99)])%list
  /\ ~ In (SetPercent "salon" 11) (trace (snd run))
  /\ ~ In (SetPercent "salon" 12) (trace (snd run))
  /\ get_current_state_percent (snd run) "salon" = Some 10.
Proof.
  vm_compute. repeat split; intuition discriminate.
Qed.

(** Opening from fully closed: the step from 100% to 99% is the first step,
    and its sleep is the one set before the loop (2 - 0.1 + 0.5 here); the
    loop itself only sleeps the per-percent delay. *)
Example opening_from_closed_sleeps :
  let run := _move_to_state_percent cfg0 channel_up 5 "salon" 98 7 (salon_at 100 7) in
  fst run = Returned tt
  /\ trace (snd run)
     = [ Cmd "on" "hw1"; Sleep _SEND_COMMAND_DELAY;
         Sleep (first_step_delay 2 (10 / 99) 100 (-1));
         SetPercent "salon" 99; SetState "salon" STOP; Sleep (10 / 99);
         SetPercent "salon" 98; SetState "salon" STOP;
         Cmd "pause" "hw1"; Sleep _SEND_COMMAND_DELAY ]
  /\ (first_step_delay 2 (10 / 99) 100 (-1) == 24 # 10)%Q.
Proof.
  vm_compute. repeat split.
Qed.

Lemma stop_sent_iff_witness :
  exists w' evs,
    _move_to_state_percent cfg0 channel_up 5 "salon" 50 7 (salon_at 48 7) = (Returned tt, w')
    /\ trace w' = evs
    /\ (In (Cmd "pause" "hw1") evs <-> 0 < 50 < 100).
Proof.
  destruct (stop_sent_iff cfg0 channel_up "salon" "hw1" 12 2 10 5 50 7 (salon_at 48 7))
    as (w' & evs & Hrun & Htrace & Hiff).
  - exact salon_calibrated.
  - apply channel_up_launches.
  - vm_compute. reflexivity.
  - vm_compute. lia.
  - vm_compute. lia.
  - exists w', evs. split; [exact Hrun|]. split; [exact Htrace|exact Hiff].
Defined.

(** [operate(salon, HALF, 50)] twice in a row at 48%: the loop of the first
    call's thread ends at its target of 50%, strictly between 0 and 100, and
    the thread sends no STOP. *)
Example superseded_move_sends_no_stop :
  let w := issued_twice HALF (Some 50) (salon_at 48 1) in
  let run := run_thread cfg0 channel_up 5 "salon" (Some 50) 1000 w in
  trace w = [Spawn "salon" (Some 50) 1000; Spawn "salon" (Some 50) 1001]
  /\ fst run = Returned tt
  /\ trace (snd run)
     = (trace w ++ [Sleep (first_step_delay 2 (12 / 99) 48 1); Sleep (12 / 99)])%list
  /\ 0 < clamp 50 < 100
  /\ ~ In (Cmd "pause" "hw1") (trace (snd run)).
Proof.
  vm_compute. repeat split; intuition discriminate.
Qed.

Lemma already_at_target_witness :
  exists w',
    _move_to_state_percent cfg0 channel_up 5 "salon" 0 7 (salon_at 0 7) = (Returned tt, w')
    /\ trace w' = [Cmd "on" "hw1"; Sleep _SEND_COMMAND_DELAY]
    /\ _shutter_state_percent w' !! "salon" = Some 0.
Proof.
  destruct (already_at_target cfg0 channel_up "salon" "hw1" 12 2 10 5 0 7 (salon_at 0 7))
    as (w' & Hrun & Htrace & Hpercent & _).
  - exact salon_calibrated.
  - apply channel_up_launches.
  - vm_compute. reflexivity.
  - vm_compute. reflexivity.
  - exists w'. split; [exact Hrun|]. split; [exact Htrace|]. rewrite Hpercent.
    vm_compute. reflexivity.
Defined.

(** [operate(salon, OPEN)] twice in a row at 0%: the thread of the first
    call, superseded by the second, sends nothing. *)
Example superseded_thread_resends_nothing :
  let w := issued_twice OPEN None (salon_at 0 1) in
  let run := run_thread cfg0 channel_up 5 "salon" (Some 0) 1000 w in
  trace w = [Spawn "salon" (Some 0) 1000; Spawn "salon" (Some 0) 1001]
  /\ get_current_state_percent w "salon" = Some 0
  /\ fst run = Returned tt
  /\ trace (snd run) = trace w
  /\ ~ In (Cmd "on" "hw1") (trace (snd run)).
Proof.
  vm_compute. repeat split; intuition discriminate.
Qed.


(** [operate(salon, OPEN)] twice in a row with no percent known: the thread
    of the first call sleeps the end-of-travel delay but sends no OPEN and
    records no percent. *)
Example superseded_thread_drives_nowhere :
  let w := issued_twice OPEN None fresh in
  let run := run_thread cfg0 channel_up 5 "salon" (Some 0) 1000 w in
  trace w = [Spawn "salon" (Some 0) 1000; Spawn "salon" (Some 0) 1001]
  /\ get_current_state_percent w "salon" = None
  /\ fst run = Returned tt
  /\ trace (snd run) = (trace w ++ [Sleep (10 + 2 + 1)])%list
  /\ ~ In (Cmd "on" "hw1") (trace (snd run))
  /\ get_current_state_percent (snd run) "salon" = None.
Proof.
  vm_compute. repeat split; intuition discriminate.
Qed.

Lemma percent_write_sets_state_witness :
  exists w',
    _update_state_percent_from_thread cfg0 "salon" 50 7 (salon_at 49 7) = (Returned tt, w')
    /\ get_current_state_percent w' "salon" = Some 50
    /\ get_current_state w' "salon" = HALF.
Proof.
  destruct (proj2 (percent_write_sets_state cfg0 channel_up) "salon" 50 7 (salon_at 49 7))
    as (w' & p' & Hrun & _ & Hpercent & Hp & Hstate).
  - holds_lock.
  - vm_compute. reflexivity.
  - exists w'. split; [exact Hrun|]. rewrite Hpercent, Hstate, Hp.
    split; vm_compute; reflexivity.
Defined.

Lemma operate_half_basic_witness :
  exists w',
    operate cfg0 channel_up "Cuisine" HALF None 1000 fresh = (Returned false, w')
    /\ trace w' = [] /\ _shutter_state w' = ∅ /\ _shutter_state_percent w' = ∅.
Proof.
  apply (operate_half_basic cfg0 channel_up "Cuisine" None 1000 "hw2" fresh).
  - vm_compute. reflexivity.
  - holds_lock.
  - vm_compute. reflexivity.
Defined.

Lemma operate_unknown_raises_witness :
  operate cfg0 channel_up "nope" OPEN None 1000 fresh = (Raised ValueError, fresh).
Proof.
  apply (operate_unknown_raises cfg0 channel_up "nope" OPEN None 1000 fresh).
  vm_compute. reflexivity.
Defined.

(** [operate("nope", OPEN)] does not return [False]: it raises. *)
Lemma operate_unknown_returns_no_boolean :
  fst (operate cfg0 channel_up "nope" OPEN None 1000 fresh) = Raised ValueError
  /\ fst (operate cfg0 channel_up "nope" OPEN None 1000 fresh) <> Returned false.
Proof.
  vm_compute. split; [reflexivity|discriminate].
Qed.

Lemma synchronous_dispatch_writes_first_witness :
  exists w',
    operate cfg0 channel_missing "cuisine" OPEN None 1000 fresh = (Raised OSError, w')
    /\ get_current_state w' "cuisine" = OPEN.
Proof.
  destruct (synchronous_dispatch_writes_first cfg0 channel_missing "cuisine" OPEN None 1000
              "hw2" fresh) as (cmd & w' & Hcmd & Hrun & Hstate & _).
  - vm_compute. reflexivity.
  - holds_lock.
  - vm_compute. reflexivity.
  - injection Hcmd as <-. exists w'. split; [exact Hrun|].
    unfold get_current_state. rewrite Hstate. vm_compute. reflexivity.
Defined.

(** The channel process exits with a failure status: [operate] still
    returns [True] and the commanded state has replaced the earlier one. *)
Lemma failed_dispatch_returns_true :
  let run := operate cfg0 channel_failing "cuisine" OPEN None 1000 fresh in
  channel_failing "on" "hw2" = Exited 1
  /\ fst run = Returned true
  /\ get_current_state fresh "cuisine" = STOP
  /\ get_current_state (snd run) "cuisine" = OPEN.
Proof.
  vm_compute. repeat split.
Qed.

(** Three calls within one millisecond: the third call registers the token
    of the first again. *)
Example same_millisecond_token_reused :
  fst (operate_all cfg0 channel_up "salon"
         [(OPEN, None, 1000); (CLOSE, None, 1000); (OPEN, None, 1000)] fresh)
  = [1000; 999; 1000].
Proof. vm_compute. reflexivity. Qed.

Lemma tokens_differ_and_follow_clock_witness :
  fst (operate_all cfg0 channel_up "salon"
         [(OPEN, None, 1000); (STOP, None, 1001); (HALF, Some 30, 1500)] fresh)
  = [1000; 1001; 1500]
  /\ increasing [1000; 1001; 1500].
Proof.
  destruct (tokens_differ_and_follow_clock cfg0 channel_up "salon" "hw1"
              [(OPEN, None, 1000); (STOP, None, 1001); (HALF, Some 30, 1500)] fresh)
    as (_ & _ & Hinc).
  - vm_compute. reflexivity.
  - holds_lock.
  - split; [vm_compute; reflexivity|].
    assert (E : fst (operate_all cfg0 channel_up "salon"
                       [(OPEN, None, 1000); (STOP, None, 1001); (HALF, Some 30, 1500)] fresh)
                = [1000; 1001; 1500]) by (vm_compute; reflexivity).
    rewrite <- E. apply Hinc. cbn. lia.
Defined.

(** Two calls within the same millisecond: the second token is smaller than
    the first. *)
Lemma same_millisecond_tokens_decrease :
  fst (operate_all cfg0 channel_up "salon" [(OPEN, None, 1000); (CLOSE, None, 1000)] fresh)
  = [1000; 999]
  /\ ~ increasing [1000; 999].
Proof.
  split; [vm_compute; reflexivity|]. cbn. lia.
Qed.

(** * Further properties *)

(** ** Relations kept by every step of a thread *)

Section Stepwise.

Context (c : config) (channel : string -> string -> chan_result).
Context (R : world -> world -> Prop).
Hypothesis R_refl : forall w, R w w.
Hypothesis R_trans : forall w1 w2 w3, R w1 w2 -> R w2 w3 -> R w1 w3.

Lemma steps_ret {A} (a : A) : steps R (ret a).
Proof. intros w. apply R_refl. Qed.

Lemma steps_raise {A} e : steps R (@raise A e).
Proof. intros w. apply R_refl. Qed.

Lemma steps_bind {A B} (m : M A) (k : A -> M B) :
  steps R m -> (forall a, steps R (k a)) -> steps R (bind m k).
Proof.
  intros Hm Hk w. unfold bind. specialize (Hm w).
  destruct (m w) as [[a|e|] w1]; cbn in *; [|done..].
  eapply R_trans; [exact Hm|apply Hk].
Qed.

Lemma steps_token_is_current sh tok : steps R (token_is_current sh tok).
Proof. intros w. unfold token_is_current. destruct (_ !! sh); apply R_refl. Qed.

Lemma steps_as_float o : steps R (as_float o).
Proof. destruct o; [apply steps_ret|apply steps_raise]. Qed.

Lemma steps_with_lock {A} sh (m : M A) : steps R m -> steps R (with_lock c sh m).
Proof. intros H. unfold with_lock. destruct (bool_decide _); [done|apply steps_raise]. Qed.

Section Thread.

Context (shutter : string) (tok : Z).
Hypothesis R_sleep : forall d, steps R (sleep d).
Hypothesis R_send : forall st w,
  _shutter_thread_tokens w !! shutter = Some tok ->
  R w (snd (with_lock c shutter (_send_command c channel shutter st) w)).
Hypothesis R_write : forall p w,
  _shutter_thread_tokens w !! shutter = Some tok ->
  R w (snd (with_lock c shutter
              (bind (set_percent shutter (clamp p))
                    (fun _ => set_state shutter (state_of_percent c shutter (clamp p)))) w)).

Lemma steps_send_from_thread st :
  steps R (_send_command_from_thread c channel shutter st tok).
Proof.
  intros w. unfold _send_command_from_thread, bind, token_is_current.
  destruct (_ !! shutter) as [t|] eqn:Ht; [|apply R_refl].
  destruct (Z.eqb_spec t tok) as [->|_]; [by apply R_send|apply R_refl].
Qed.

Lemma steps_update p :
  steps R (_update_state_percent_from_thread c shutter p tok).
Proof.
  intros w. unfold _update_state_percent_from_thread, bind, token_is_current.
  destruct (_ !! shutter) as [t|] eqn:Ht; [|apply R_refl].
  destruct (Z.eqb_spec t tok) as [->|_]; [by apply R_write|apply R_refl].
Qed.

Ltac stepwise :=
  repeat first
    [ apply steps_send_from_thread | apply steps_update
    | apply steps_token_is_current | apply steps_as_float | apply R_sleep
    | apply steps_ret
    | match goal with |- steps _ (if ?b then _ else _) => destruct b end
    | apply steps_bind; [|intros ?] ].

Lemma steps_motion_loop fuel d one inc : forall cur,
  steps R (motion_loop c fuel shutter d tok one inc cur).
Proof.
  induction fuel as [|fuel IH]; intros cur; cbn [motion_loop]; [intros w; apply R_refl|].
  apply steps_bind; [apply steps_update|intros _].
  destruct (_ =? d); [apply steps_ret|].
  apply steps_bind; [|intros _; apply IH]. stepwise.
Qed.

Lemma steps_thread fuel d :
  steps R (_move_to_state_percent c channel fuel shutter d tok).
Proof.
  unfold _move_to_state_percent.
  apply steps_bind; [intros w; apply R_refl|intros known].
  apply steps_bind; [|intros cur].
  - unfold drive_to_endpoint. destruct known; stepwise.
  - unfold move_from.
    repeat first
      [ apply steps_motion_loop | apply steps_send_from_thread | apply steps_update
      | apply steps_token_is_current | apply steps_as_float | apply R_sleep
      | apply steps_ret
      | match goal with |- steps _ (if ?b then _ else _) => destruct b end
      | apply steps_bind; [|intros ?] ].
Qed.

Lemma steps_run_thread fuel desired :
  steps R (run_thread c channel fuel shutter desired tok).
Proof. destruct desired; [apply steps_thread|apply steps_raise]. Qed.

End Thread.

Section Operate.

Context (raw : string).
Hypothesis R_token : forall k, steps R (set_token (lower raw) k).
Hypothesis R_state : forall st, steps R (set_state (lower raw) st).
Hypothesis R_command : forall st, steps R (_send_command c channel (lower raw) st).
Hypothesis R_spawn : forall desired k, steps R (emit (Spawn (lower raw) desired k)).

Lemma steps_operate st half now : steps R (operate c channel raw st half now).
Proof.
  unfold operate. destruct (negb _); [apply steps_raise|].
  apply steps_with_lock.
  apply steps_bind; [intros w; apply R_refl|intros current].
  apply steps_bind; [apply R_token|intros _].
  destruct (fine_tunable c (lower raw)), st;
    repeat first
      [ apply R_state | apply R_command | apply R_spawn | apply steps_ret
      | apply steps_bind; [|intros ?] ].
Qed.

End Operate.

End Stepwise.

(** ** Instances of the relations *)

Lemma logged_only_refl P w : logged_only P w w.
Proof. exists []. split; [by rewrite app_nil_r|constructor]. Qed.

Lemma logged_only_trans P w1 w2 w3 :
  logged_only P w1 w2 -> logged_only P w2 w3 -> logged_only P w1 w3.
Proof.
  intros (e1 & E1 & F1) (e2 & E2 & F2). exists (e1 ++ e2)%list.
  split; [by rewrite E2, E1, app_assoc|by apply Forall_app].
Qed.

Lemma logged_only_emit (P : event -> Prop) e w : P e -> logged_only P w (snd (emit e w)).
Proof. intros He. exists [e]. split; [done|by repeat constructor]. Qed.

Lemma same_stores_refl w : same_stores w w.
Proof. by repeat split. Qed.

Lemma same_stores_trans w1 w2 w3 :
  same_stores w1 w2 -> same_stores w2 w3 -> same_stores w1 w3.
Proof. intros (A1 & B1 & C1) (A2 & B2 & C2). repeat split; congruence. Qed.

Lemma only_sleeps_refl sh tok w : only_sleeps sh tok w w.
Proof. intros _. split; [apply same_stores_refl|apply logged_only_refl]. Qed.

Lemma only_sleeps_trans sh tok w1 w2 w3 :
  only_sleeps sh tok w1 w2 -> only_sleeps sh tok w2 w3 -> only_sleeps sh tok w1 w3.
Proof.
  intros H12 H23 Hstale. destruct (H12 Hstale) as [S12 L12].
  destruct H23 as [S23 L23].
  { destruct Hstale as (t & Ht & Hne). exists t. split; [|done].
    destruct S12 as (E & _). by rewrite E. }
  split; [by eapply same_stores_trans|by eapply logged_only_trans].
Qed.

Lemma only_sleeps_sleep sh tok d : steps (only_sleeps sh tok) (sleep d).
Proof.
  intros w _. unfold sleep. destruct (Qlt_bool d 0); cbn.
  - split; [apply same_stores_refl|apply logged_only_refl].
  - split; [by repeat split|]. exists [Sleep d]. split; [done|by repeat constructor].
Qed.

Lemma only_sleeps_current sh tok w w' :
  _shutter_thread_tokens w !! sh = Some tok -> only_sleeps sh tok w w'.
Proof. intros Ht (t & Ht' & Hne). congruence. Qed.

Lemma keeps_range_refl w : keeps_percents_in_range w w.
Proof. by intros H. Qed.

Lemma keeps_range_trans w1 w2 w3 :
  keeps_percents_in_range w1 w2 -> keeps_percents_in_range w2 w3 ->
  keeps_percents_in_range w1 w3.
Proof. unfold keeps_percents_in_range. auto. Qed.

Lemma keeps_range_same_percents w w' :
  _shutter_state_percent w' = _shutter_state_percent w -> keeps_percents_in_range w w'.
Proof. intros E H sh p. rewrite E. apply H. Qed.

Lemma others_untouched_refl sh w : others_untouched sh w w.
Proof. by intros other _. Qed.

Lemma others_untouched_trans sh w1 w2 w3 :
  others_untouched sh w1 w2 -> others_untouched sh w2 w3 -> others_untouched sh w1 w3.
Proof.
  intros H12 H23 other Hne. destruct (H12 other Hne) as (A1 & B1 & C1).
  destruct (H23 other Hne) as (A2 & B2 & C2). repeat split; congruence.
Qed.

Lemma others_untouched_same sh w w' : same_stores w w' -> others_untouched sh w w'.
Proof. intros (A & B & C) other _. by rewrite A, B, C. Qed.

Section Instances.

Context (c : config) (channel : string -> string -> chan_result).

(** What [_send_command] leaves behind: the stores as they were and at
    most a command of the vocabulary followed by the spacing sleep. *)
Lemma send_command_effect sh st w :
  same_stores w (snd (_send_command c channel sh st w))
  /\ logged_only (known_command c) w (snd (_send_command c channel sh st w)).
Proof.
  unfold _send_command.
  destruct (_shutters c !! lower sh) as [hw|] eqn:Hs;
    [|split; [apply same_stores_refl|apply logged_only_refl]].
  destruct (_shutter_state_to_command st) as [cmd|] eqn:Hc;
    [|split; [apply same_stores_refl|apply logged_only_refl]].
  assert (Hknown : known_command c (Cmd cmd hw)).
  { split; [|eauto]. destruct st; cbn in Hc; try discriminate; injection Hc as <-; auto. }
  unfold run_channel, bind, emit. destruct (channel cmd hw); cbn.
  - rewrite send_delay_run. cbn. split; [by repeat split|].
    exists [Cmd cmd hw; Sleep _SEND_COMMAND_DELAY]. split; [by rewrite <- app_assoc|].
    constructor; [exact Hknown|]. constructor; [exact I|]. constructor.
  - split; [by repeat split|]. exists [Cmd cmd hw]. split; [done|].
    constructor; [exact Hknown|]. constructor.
Qed.

Lemma with_lock_snd {A} sh (m : M A) w :
  snd (with_lock c sh m w) = snd (m w) \/ snd (with_lock c sh m w) = w.
Proof. unfold with_lock. destruct (bool_decide _); auto. Qed.

End Instances.

(** ** What threads and [operate] never do *)

Section Never.

Context (c : config) (channel : string -> string -> chan_result).

Lemma superseded_thread fuel sh desired tok w :
  only_sleeps sh tok w (snd (run_thread c channel fuel sh desired tok w)).
Proof.
  apply (steps_run_thread c channel (only_sleeps sh tok)
           (only_sleeps_refl sh tok) (only_sleeps_trans sh tok)).
  - apply only_sleeps_sleep.
  - intros st w0 H0. by apply only_sleeps_current.
  - intros p w0 H0. by apply only_sleeps_current.
Qed.

(** A thread whose token is not the registered one only sleeps: it sends
    nothing, writes nothing, and leaves the three dictionaries as they
    were, whatever the configuration and however it ends. *)
Theorem superseded_thread_only_sleeps fuel sh desired tok t w :
  _shutter_thread_tokens w !! sh = Some t ->
  t <> tok ->
  let w' := snd (run_thread c channel fuel sh desired tok w) in
  _shutter_thread_tokens w' = _shutter_thread_tokens w
  /\ _shutter_state w' = _shutter_state w
  /\ _shutter_state_percent w' = _shutter_state_percent w
  /\ exists evs, trace w' = (trace w ++ evs)%list /\ Forall is_sleep evs.
Proof.
  intros Ht Hne w'.
  destruct (superseded_thread fuel sh desired tok w) as [(A & B & C) L]; [eauto|].
  auto.
Qed.

(** Any call of [operate] on a configured shutter, whatever its state and
    however it ends, supersedes the thread holding the token registered
    before the call: run after it, that thread only sleeps. *)
Theorem operate_supersedes_running_thread raw st half now hw fuel desired k w :
  _shutters c !! lower raw = Some hw ->
  lower raw ∈ _shutter_locks c ->
  _shutter_thread_tokens w !! lower raw = Some k ->
  let w1 := snd (operate c channel raw st half now w) in
  let w2 := snd (run_thread c channel fuel (lower raw) desired k w1) in
  _shutter_thread_tokens w1 !! lower raw <> Some k
  /\ _shutter_thread_tokens w2 = _shutter_thread_tokens w1
  /\ _shutter_state w2 = _shutter_state w1
  /\ _shutter_state_percent w2 = _shutter_state_percent w1
  /\ exists evs, trace w2 = (trace w1 ++ evs)%list /\ Forall is_sleep evs.
Proof.
  intros Hs Hlock Hk w1 w2.
  pose proof (operate_token c channel raw st half now hw w Hs Hlock) as Ht.
  fold w1 in Ht. rewrite Hk in Ht.
  assert (Hne : minted (Some k) now <> k).
  { unfold minted. cbn. destruct (Z.eqb_spec k now); lia. }
  split; [rewrite Ht; congruence|].
  destruct (superseded_thread fuel (lower raw) desired k w1) as [(A & B & C) L];
    [eauto|]. auto.
Qed.

Lemma command_steps_set_token sh k : steps (logged_only (known_command c)) (set_token sh k).
Proof. intros w. exists []. cbn. split; [by rewrite app_nil_r|constructor]. Qed.

Lemma command_steps_set_state sh st : steps (logged_only (known_command c)) (set_state sh st).
Proof. intros w. exists [SetState sh st]. split; [done|]. by repeat constructor. Qed.

Lemma command_steps_sleep d : steps (logged_only (known_command c)) (sleep d).
Proof.
  intros w. unfold sleep. destruct (Qlt_bool d 0); [apply logged_only_refl|].
  by apply logged_only_emit.
Qed.

Lemma command_steps_write sh p w :
  logged_only (known_command c) w
    (snd (with_lock c sh
            (bind (set_percent sh (clamp p))
                  (fun _ => set_state sh (state_of_percent c sh (clamp p)))) w)).
Proof.
  destruct (with_lock_snd c sh
              (bind (set_percent sh (clamp p))
                    (fun _ => set_state sh (state_of_percent c sh (clamp p)))) w)
    as [-> | ->]; [|apply logged_only_refl].
  exists [SetPercent sh (clamp p); SetState sh (state_of_percent c sh (clamp p))].
  split; [cbn; by rewrite <- app_assoc|]. by repeat constructor.
Qed.

Lemma command_steps_send sh st w :
  logged_only (known_command c) w
    (snd (with_lock c sh (_send_command c channel sh st) w)).
Proof.
  destruct (with_lock_snd c sh (_send_command c channel sh st) w) as [-> | ->];
    [apply send_command_effect|apply logged_only_refl].
Qed.

(** Every command [operate] or a thread hands to the actuator channel is
    one of on, off and pause, for the hardware name of a configured
    shutter: HALF never reaches the hardware. *)
Theorem commands_in_vocabulary raw st half now fuel sh desired tok w :
  (exists evs,
     trace (snd (operate c channel raw st half now w)) = (trace w ++ evs)%list
     /\ Forall (known_command c) evs)
  /\ (exists evs,
        trace (snd (run_thread c channel fuel sh desired tok w)) = (trace w ++ evs)%list
        /\ Forall (known_command c) evs).
Proof.
  split.
  - apply (steps_operate c channel (logged_only (known_command c))
             (logged_only_refl _) (logged_only_trans _) raw).
    + intros k. apply command_steps_set_token.
    + intros s. apply command_steps_set_state.
    + intros s w0. apply send_command_effect.
    + intros d k w0. by apply logged_only_emit.
  - apply (steps_run_thread c channel (logged_only (known_command c))
             (logged_only_refl _) (logged_only_trans _)).
    + apply command_steps_sleep.
    + intros s w0 _. apply command_steps_send.
    + intros p w0 _. apply command_steps_write.
Qed.

Lemma range_steps_write sh p w :
  keeps_percents_in_range w
    (snd (with_lock c sh
            (bind (set_percent sh (clamp p))
                  (fun _ => set_state sh (state_of_percent c sh (clamp p)))) w)).
Proof.
  destruct (with_lock_snd c sh
              (bind (set_percent sh (clamp p))
                    (fun _ => set_state sh (state_of_percent c sh (clamp p)))) w)
    as [-> | ->]; [|apply keeps_range_refl].
  intros H other q. cbn. destruct (decide (sh = other)) as [->|Hne].
  - rewrite lookup_insert_eq. intros [= <-]. apply clamp_range.
  - rewrite lookup_insert_ne by done. apply H.
Qed.

Lemma range_steps_sleep d : steps keeps_percents_in_range (sleep d).
Proof.
  intros w. unfold sleep. destruct (Qlt_bool d 0); by apply keeps_range_same_percents.
Qed.

Lemma range_steps_send sh st w :
  keeps_percents_in_range w (snd (with_lock c sh (_send_command c channel sh st) w)).
Proof.
  destruct (with_lock_snd c sh (_send_command c channel sh st) w) as [-> | ->];
    [|apply keeps_range_refl].
  apply keeps_range_same_percents. apply send_command_effect.
Qed.

(** No call ever stores a percent outside 0..100: if every stored percent
    is in that range, it still is after any [operate] call and after any
    thread, and [get_current_state_percent] returns the stored value as it
    is. *)
Theorem stored_percents_stay_in_range raw st half now fuel sh desired tok w :
  percents_in_range w ->
  percents_in_range (snd (operate c channel raw st half now w))
  /\ percents_in_range (snd (run_thread c channel fuel sh desired tok w))
  /\ forall shutter, get_current_state_percent w shutter = _shutter_state_percent w !! shutter.
Proof.
  intros Hw. split; [|split].
  - revert Hw.
    apply (steps_operate c channel keeps_percents_in_range
             keeps_range_refl keeps_range_trans raw).
    + intros k w0. by apply keeps_range_same_percents.
    + intros s w0. by apply keeps_range_same_percents.
    + intros s w0. apply keeps_range_same_percents. apply send_command_effect.
    + intros d k w0. by apply keeps_range_same_percents.
  - revert Hw.
    apply (steps_run_thread c channel keeps_percents_in_range
             keeps_range_refl keeps_range_trans).
    + apply range_steps_sleep.
    + intros s w0 _. apply range_steps_send.
    + intros p w0 _. apply range_steps_write.
  - intros shutter. unfold get_current_state_percent.
    destruct (_shutter_state_percent w !! shutter) as [p|] eqn:E; [|done].
    destruct (Hw shutter p E).
    destruct (Z.ltb_spec p 0); [lia|]. destruct (Z.gtb_spec p 100); [lia|]. done.
Qed.

End Never.

(** ** A channel that cannot be started *)

Section Failing.

Context (c : config) (channel : string -> string -> chan_result).

Hypothesis channel_fails : forall command hw, channel command hw = LaunchError.

Lemma bind_raised {A B} (m : M A) (k : A -> M B) w e w' :
  m w = (Raised e, w') -> bind m k w = (Raised e, w').
Proof. intros H. unfold bind. by rewrite H. Qed.

Lemma send_command_fails sh st w :
  exists e w', _send_command c channel sh st w = (Raised e, w') /\ same_stores w w'.
Proof.
  unfold _send_command.
  destruct (_shutters c !! lower sh) as [hw|]; [|by exists ValueError, w].
  destruct (_shutter_state_to_command st) as [command|]; [|by exists ValueError, w].
  unfold bind, run_channel, bind, emit. rewrite channel_fails. cbn.
  eexists _, _. split; [reflexivity|done].
Qed.

(** With the registered token, or none registered, the first command a
    thread tries to send ends it. *)
Lemma send_from_thread_fails sh st tok w :
  _shutter_thread_tokens w !! sh = None \/ _shutter_thread_tokens w !! sh = Some tok ->
  exists e w', _send_command_from_thread c channel sh st tok w = (Raised e, w')
               /\ same_stores w w'.
Proof.
  intros Ht. unfold _send_command_from_thread, bind, token_is_current.
  destruct Ht as [-> | ->]; [by exists KeyError, w|]. rewrite Z.eqb_refl.
  unfold with_lock. destruct (bool_decide _); [|by exists KeyError, w].
  apply send_command_fails.
Qed.

Lemma move_from_fails fuel sh d tok cur w :
  _shutter_thread_tokens w !! sh = None \/ _shutter_thread_tokens w !! sh = Some tok ->
  same_stores w (snd (move_from c channel fuel sh d tok cur w)).
Proof.
  intros Ht. unfold move_from.
  pose proof (fun st => send_from_thread_fails sh st tok w Ht) as Hsend.
  destruct (cur =? d).
  - unfold bind at 1. unfold token_is_current at 1.
    destruct Ht as [Hn | Hs]; [by rewrite Hn|]. rewrite Hs.
    destruct (d =? 0).
    + destruct (Hsend OPEN) as (e & w' & Hrun & Hsame).
      by rewrite (bind_raised _ _ _ _ _ Hrun).
    + unfold bind at 1. cbn [ret]. destruct (d =? 100); [|done].
      destruct (Hsend CLOSE) as (e & w' & Hrun & Hsame). by rewrite Hrun.
  - set (direction := if d <? cur then OPEN else CLOSE).
    unfold bind at 1.
    destruct (get_full_length_delay c sh direction) as [full|]; [|done].
    cbn [as_float ret]. unfold bind at 1.
    assert (Hfirst : forall (k : Q -> M unit),
               (forall q, same_stores w (snd (k q w))) ->
               same_stores w
                 (snd (bind (if crosses_boundary cur
                                   match direction with OPEN => -1 | _ => 1 end
                             then bind (as_float (get_closed_offset_delay c sh))
                                       (fun offset => ret (offset - _SEND_COMMAND_DELAY)%Q)
                             else ret (full / 99 - _SEND_COMMAND_DELAY)%Q) k w))).
    { intros k Hk. unfold bind at 1. destruct (crosses_boundary _ _); [|apply Hk].
      unfold bind. destruct (get_closed_offset_delay c sh); [apply Hk|done]. }
    apply (Hfirst (fun first_percent_delay => bind _ _)). intros q.
    destruct (Hsend direction) as (e & w' & Hrun & Hsame).
    by rewrite (bind_raised _ _ _ _ _ Hrun).
Qed.

(** While the actuator command cannot be started a thread writes nothing:
    whatever token it holds and however it ends, the state, the percent and
    the token of every shutter stay as they were.  A thread records a
    percent only after a command of its own has been started. *)
Theorem thread_writes_nothing_when_channel_fails fuel sh desired tok w :
  let w' := snd (run_thread c channel fuel sh desired tok w) in
  _shutter_thread_tokens w' = _shutter_thread_tokens w
  /\ _shutter_state w' = _shutter_state w
  /\ _shutter_state_percent w' = _shutter_state_percent w.
Proof.
  intros w'. change (same_stores w w'). subst w'.
  destruct (_shutter_thread_tokens w !! sh) as [t|] eqn:Et.
  - destruct (decide (t = tok)) as [->|Hne].
    + destruct desired as [d|]; [|done]. cbn [run_thread].
      unfold _move_to_state_percent, bind at 1, read_current_state_percent.
      destruct (get_current_state_percent w sh) as [cur|].
      * cbn [drive_to_endpoint]. unfold bind at 1. cbn [ret].
        apply move_from_fails. by right.
      * cbn [drive_to_endpoint].
        destruct (send_from_thread_fails sh (if clamp d <=? 50 then OPEN else CLOSE)
                    tok w (or_intror Et)) as (e & w' & Hrun & Hsame).
        rewrite (bind_raised _ _ _ e w'); [done|].
        by apply bind_raised.
    + destruct (superseded_thread c channel fuel sh desired tok w) as [H _]; eauto.
  - destruct desired as [d|]; [|done]. cbn [run_thread].
    unfold _move_to_state_percent, bind at 1, read_current_state_percent.
    destruct (get_current_state_percent w sh) as [cur|].
    + cbn [drive_to_endpoint]. unfold bind at 1. cbn [ret].
      apply move_from_fails. by left.
    + cbn [drive_to_endpoint].
      destruct (send_from_thread_fails sh (if clamp d <=? 50 then OPEN else CLOSE)
                  tok w (or_introl Et)) as (e & w' & Hrun & Hsame).
      rewrite (bind_raised _ _ _ e w'); [done|].
      by apply bind_raised.
Qed.

End Failing.

(** ** Tokens within one millisecond *)

(** Three calls of [operate] on a configured shutter at the same clock
    reading register that reading, the reading minus 1, and the reading
    again: after the third call the thread of the first one holds the
    registered token once more. *)
Theorem third_call_in_a_millisecond_reuses_token c channel raw hw now
    st1 half1 st2 half2 st3 half3 w :
  _shutters c !! lower raw = Some hw ->
  lower raw ∈ _shutter_locks c ->
  default 0 (_shutter_thread_tokens w !! lower raw) <> now ->
  let w1 := snd (operate c channel raw st1 half1 now w) in
  let w2 := snd (operate c channel raw st2 half2 now w1) in
  let w3 := snd (operate c channel raw st3 half3 now w2) in
  _shutter_thread_tokens w1 !! lower raw = Some now
  /\ _shutter_thread_tokens w2 !! lower raw = Some (now - 1)
  /\ _shutter_thread_tokens w3 !! lower raw = Some now.
Proof.
  intros Hs Hlock Hne w1 w2 w3.
  assert (H1 : _shutter_thread_tokens w1 !! lower raw = Some now).
  { unfold w1. rewrite (operate_token c channel raw st1 half1 now hw w Hs Hlock).
    unfold minted. by destruct (Z.eqb_spec (default 0 (_shutter_thread_tokens w !! lower raw)) now). }
  assert (H2 : _shutter_thread_tokens w2 !! lower raw = Some (now - 1)).
  { unfold w2. rewrite (operate_token c channel raw st2 half2 now hw w1 Hs Hlock), H1.
    unfold minted. cbn. by rewrite Z.eqb_refl. }
  split; [exact H1|]. split; [exact H2|].
  unfold w3. rewrite (operate_token c channel raw st3 half3 now hw w2 Hs Hlock), H2.
  unfold minted. cbn. destruct (Z.eqb_spec (now - 1) now); [lia|done].
Qed.

(** ** Shutters are independent *)

Section Frame.

Context (c : config) (channel : string -> string -> chan_result).

Lemma frame_steps_sleep sh d : steps (others_untouched sh) (sleep d).
Proof.
  intros w. unfold sleep. destruct (Qlt_bool d 0); by apply others_untouched_same.
Qed.

Lemma frame_steps_send sh target st w :
  others_untouched sh w (snd (with_lock c target (_send_command c channel target st) w)).
Proof.
  destruct (with_lock_snd c target (_send_command c channel target st) w) as [-> | ->];
    [|apply others_untouched_refl].
  apply others_untouched_same, send_command_effect.
Qed.

Lemma frame_steps_write sh p w :
  others_untouched sh w
    (snd (with_lock c sh
            (bind (set_percent sh (clamp p))
                  (fun _ => set_state sh (state_of_percent c sh (clamp p)))) w)).
Proof.
  destruct (with_lock_snd c sh
              (bind (set_percent sh (clamp p))
                    (fun _ => set_state sh (state_of_percent c sh (clamp p)))) w)
    as [-> | ->]; [|apply others_untouched_refl].
  intros other Hne. cbn. by rewrite !lookup_insert_ne.
Qed.

Lemma frame_operate raw st half now w :
  others_untouched (lower raw) w (snd (operate c channel raw st half now w)).
Proof.
  apply (steps_operate c channel (others_untouched (lower raw))
           (others_untouched_refl _) (others_untouched_trans _) raw).
  - intros k w0 o Ho. cbn. by rewrite lookup_insert_ne.
  - intros s w0 o Ho. cbn. by rewrite lookup_insert_ne.
  - intros s w0. apply others_untouched_same, send_command_effect.
  - intros d k w0. by apply others_untouched_same.
Qed.

Lemma operate_keeps_percents raw st half now w :
  _shutter_state_percent (snd (operate c channel raw st half now w))
  = _shutter_state_percent w.
Proof.
  apply (steps_operate c channel
           (fun w w' => _shutter_state_percent w' = _shutter_state_percent w)).
  - done.
  - intros w1 w2 w3 H12 H23. congruence.
  - by intros k w0.
  - by intros s w0.
  - intros s w0. apply send_command_effect.
  - by intros d k w0.
Qed.

Lemma frame_thread fuel sh desired tok w :
  others_untouched sh w (snd (run_thread c channel fuel sh desired tok w)).
Proof.
  apply (steps_run_thread c channel (others_untouched sh)
           (others_untouched_refl _) (others_untouched_trans _)).
  - apply frame_steps_sleep.
  - intros s w0 _. apply frame_steps_send.
  - intros p w0 _. apply frame_steps_write.
Qed.

(** [operate] on one shutter and a thread of one shutter leave the token,
    the state and the percent of every other shutter as they were; and
    [operate] itself never writes a percent. *)
Theorem other_shutters_untouched raw st half now fuel sh desired tok other w :
  (other <> lower raw ->
   let w' := snd (operate c channel raw st half now w) in
   _shutter_thread_tokens w' !! other = _shutter_thread_tokens w !! other
   /\ _shutter_state w' !! other = _shutter_state w !! other)
  /\ _shutter_state_percent (snd (operate c channel raw st half now w))
     = _shutter_state_percent w
  /\ (other <> sh ->
      let w' := snd (run_thread c channel fuel sh desired tok w) in
      _shutter_thread_tokens w' !! other = _shutter_thread_tokens w !! other
      /\ _shutter_state w' !! other = _shutter_state w !! other
      /\ _shutter_state_percent w' !! other = _shutter_state_percent w !! other).
Proof.
  split; [|split].
  - intros Hne w'. destruct (frame_operate raw st half now w other Hne) as (A & B & _).
    done.
  - apply operate_keeps_percents.
  - intros Hne w'. exact (frame_thread fuel sh desired tok w other Hne).
Qed.

(** A motion thread never changes the token registry: only [operate]
    supersedes a thread, and a thread never revives itself or stops
    another. *)
Theorem thread_never_registers_token fuel sh desired tok w :
  _shutter_thread_tokens (snd (run_thread c channel fuel sh desired tok w))
  = _shutter_thread_tokens w.
Proof.
  destruct desired as [d|]; [|reflexivity]. apply thread_keeps_tokens.
Qed.

End Frame.

(** ** Threads end *)

Section Termination.

Context (c : config) (channel : string -> string -> chan_result).

Lemma finishes_ret {A} (a : A) : finishes (ret a).
Proof. by intros w. Qed.

Lemma finishes_raise {A} e : finishes (@raise A e).
Proof. by intros w. Qed.

(** [P] holds of every value [m] returns. *)
Lemma finishes_bind {A B} (P : A -> Prop) (m : M A) (k : A -> M B) :
  finishes m ->
  (forall w a w', m w = (Returned a, w') -> P a) ->
  (forall a, P a -> finishes (k a)) ->
  finishes (bind m k).
Proof.
  intros Hm HP Hk w. unfold bind. specialize (Hm w). specialize (HP w).
  destruct (m w) as [[a|e|] w1]; cbn in *; [|done..].
  apply Hk. by eapply HP.
Qed.

Lemma finishes_seq {A B} (m : M A) (k : A -> M B) :
  finishes m -> (forall a, finishes (k a)) -> finishes (bind m k).
Proof. intros Hm Hk. apply (finishes_bind (fun _ => True)); auto. Qed.

Lemma finishes_sleep d : finishes (sleep d).
Proof. intros w. unfold sleep. by destruct (Qlt_bool d 0). Qed.

Lemma finishes_token_is_current sh tok : finishes (token_is_current sh tok).
Proof. intros w. unfold token_is_current. by destruct (_ !! sh). Qed.

Lemma finishes_as_float o : finishes (as_float o).
Proof. by destruct o. Qed.

Lemma finishes_with_lock {A} sh (m : M A) : finishes m -> finishes (with_lock c sh m).
Proof. intros H. unfold with_lock. by destruct (bool_decide _). Qed.

Lemma finishes_send_command sh st : finishes (_send_command c channel sh st).
Proof.
  unfold _send_command. destruct (_ !! _); [|done].
  destruct (_shutter_state_to_command st); [|done].
  apply finishes_seq; [|intros; apply finishes_sleep].
  unfold run_channel. apply finishes_seq; [by intros w|intros _].
  by destruct (channel _ _).
Qed.

Lemma finishes_send_from_thread sh st tok :
  finishes (_send_command_from_thread c channel sh st tok).
Proof.
  unfold _send_command_from_thread.
  apply finishes_seq; [apply finishes_token_is_current|intros [|]]; [|done].
  apply finishes_with_lock, finishes_send_command.
Qed.

Lemma finishes_update sh p tok :
  finishes (_update_state_percent_from_thread c sh p tok).
Proof.
  unfold _update_state_percent_from_thread.
  apply finishes_seq; [apply finishes_token_is_current|intros [|]]; [|done].
  apply finishes_with_lock, finishes_seq; [|intros _]; by intros w.
Qed.

Ltac finishing :=
  repeat first
    [ apply finishes_send_from_thread | apply finishes_update
    | apply finishes_token_is_current | apply finishes_as_float | apply finishes_sleep
    | apply finishes_ret
    | match goal with |- finishes (if ?b then _ else _) => destruct b end
    | apply finishes_seq; [|intros ?] ].

Lemma finishes_motion_loop sh tok one inc n : forall fuel cur,
  (S n <= fuel)%nat ->
  finishes (motion_loop c fuel sh (cur + inc * Z.of_nat (S n)) tok one inc cur).
Proof.
  induction n as [|n IH]; intros fuel cur Hfuel;
    (destruct fuel as [|fuel]; [lia|]); cbn [motion_loop];
    (apply finishes_seq; [apply finishes_update|intros _]).
  - replace (cur + inc * Z.of_nat 1) with (cur + inc) by lia.
    rewrite Z.eqb_refl. apply finishes_ret.
  - destruct (_ =? _); [apply finishes_ret|].
    apply finishes_seq.
    + finishing.
    + intros _.
      replace (cur + inc * Z.of_nat (S (S n))) with (cur + inc + inc * Z.of_nat (S n)) by lia.
      apply IH. lia.
Qed.

Lemma finishes_move_from fuel sh d tok cur :
  (100 <= fuel)%nat -> 0 <= d <= 100 -> 0 <= cur <= 100 ->
  finishes (move_from c channel fuel sh d tok cur).
Proof.
  intros Hfuel Hd Hcur. unfold move_from.
  destruct (Z.eqb_spec cur d) as [E|Hne].
  - finishing.
  - apply finishes_seq; [apply finishes_as_float|intros full].
    apply finishes_seq.
    { destruct (crosses_boundary _ _); [|apply finishes_ret].
      apply finishes_seq; [apply finishes_as_float|intros; apply finishes_ret]. }
    intros first.
    apply finishes_seq; [apply finishes_send_from_thread|intros _].
    apply finishes_seq; [apply finishes_token_is_current|intros _].
    apply finishes_seq; [apply finishes_sleep|intros _].
    apply finishes_seq.
    + destruct (steps_between_pos cur d Hne) as [n Hn]. unfold steps_between in Hn.
      destruct (Z.ltb_spec d cur).
      * replace d with (cur + -1 * Z.of_nat (S n)) at 1 by lia.
        apply finishes_motion_loop. lia.
      * replace d with (cur + 1 * Z.of_nat (S n)) at 1 by lia.
        apply finishes_motion_loop. lia.
    + intros cur'. apply finishes_seq; [apply finishes_token_is_current|intros _].
      destruct (_ && _); [apply finishes_send_from_thread|apply finishes_ret].
Qed.

(** A thread always ends: whatever the configuration, the registry and the
    stored percent, a hundred turns of its loop are enough for it to return
    or raise. *)
Theorem thread_always_ends fuel sh desired tok w :
  (100 <= fuel)%nat ->
  fst (run_thread c channel fuel sh desired tok w) <> Timeout.
Proof.
  intros Hfuel. destruct desired as [d|]; [|done]. revert w. cbn [run_thread].
  change (finishes (_move_to_state_percent c channel fuel sh d tok)).
  unfold _move_to_state_percent.
  apply (finishes_bind (fun known => forall p, known = Some p -> 0 <= p <= 100)).
  - by intros w.
  - intros w a w' [= <- <-] p Hp. by apply get_current_state_percent_range in Hp.
  - intros known Hknown.
    apply (finishes_bind (fun cur => 0 <= cur <= 100)).
    + unfold drive_to_endpoint. destruct known; finishing.
    + intros w a w'. unfold drive_to_endpoint. destruct known as [p|].
      * intros [= <- <-]. by apply Hknown.
      * unfold bind.
        repeat match goal with
               | |- context [match ?m ?x with _ => _ end] =>
                   destruct (m x) as [[?|?|] ?]; try discriminate
               end.
        all: try (intros [= <- <-]; destruct (clamp d <=? 50); lia).
    + intros cur Hcur. apply finishes_move_from; [done|apply clamp_range|done].
Qed.

End Termination.

(** ** A call and its thread *)

Section Reach.

Context (c : config) (channel : string -> string -> chan_result).

Lemma percent_after_write sh p evs w :
  0 <= p <= 100 -> get_current_state_percent (after c sh (Some p) evs w) sh = Some p.
Proof.
  intros Hp. unfold get_current_state_percent, after. cbn. rewrite lookup_insert_eq.
  destruct (Z.ltb_spec p 0); [lia|]. destruct (Z.gtb_spec p 100); [lia|]. done.
Qed.

Lemma percent_after_log sh evs w other :
  get_current_state_percent (after c sh None evs w) other = get_current_state_percent w other.
Proof. reflexivity. Qed.

Lemma move_from_reaches sh hw cl off op fuel d cur tok w :
  calibrated c sh hw cl off op ->
  (forall cmd, channel cmd hw <> LaunchError) ->
  _shutter_thread_tokens w !! sh = Some tok ->
  (100 <= fuel)%nat ->
  0 <= d <= 100 -> 0 <= cur <= 100 ->
  get_current_state_percent w sh = Some cur ->
  exists w',
    move_from c channel fuel sh d tok cur w = (Returned tt, w')
    /\ get_current_state_percent w' sh = Some d
    /\ _shutter_thread_tokens w' = _shutter_thread_tokens w.
Proof.
  intros Hc Hch Ht Hfuel Hd Hcur Hknown.
  destruct (decide (cur = d)) as [->|Hne].
  - rewrite (move_from_same_run c channel sh hw cl off op fuel d tok tok w Hc Hch Ht).
    eexists. split; [reflexivity|]. split; [exact Hknown|apply tokens_after].
  - rewrite (move_from_run c channel sh hw cl off op fuel d cur tok tok w Hc Hch Ht Hcur Hd Hne)
      by (unfold steps_between; lia).
    eexists. split; [reflexivity|]. rewrite Z.eqb_refl. cbn [gated].
    split; [by apply percent_after_write|apply tokens_after].
Qed.

Lemma thread_reaches sh hw cl off op fuel d tok w :
  calibrated c sh hw cl off op ->
  (forall cmd, channel cmd hw <> LaunchError) ->
  _shutter_thread_tokens w !! sh = Some tok ->
  (100 <= fuel)%nat ->
  exists w',
    _move_to_state_percent c channel fuel sh d tok w = (Returned tt, w')
    /\ get_current_state_percent w' sh = Some (clamp d)
    /\ _shutter_thread_tokens w' = _shutter_thread_tokens w.
Proof.
  intros Hc Hch Ht Hfuel.
  destruct (get_current_state_percent w sh) as [cur|] eqn:Hknown.
  - rewrite (move_known_run c channel fuel sh d tok cur w Hknown).
    apply (move_from_reaches sh hw cl off op); try done.
    + apply clamp_range.
    + by apply get_current_state_percent_range in Hknown.
  - rewrite (move_unknown_run c channel sh hw cl off op fuel d tok tok w Hc Hch Ht Hknown).
    rewrite Z.eqb_refl. cbn [gated].
    destruct (move_from_reaches sh hw cl off op fuel (clamp d) (endpoint_of (clamp d)) tok
                (after c sh (Some (endpoint_of (clamp d)))
                       (endpoint_plan c true sh hw cl off op (clamp d)) w))
      as (w' & Hrun & Hp & Htok);
      [first [ done | by rewrite tokens_after | apply clamp_range | apply endpoint_of_range
             | apply percent_after_write, endpoint_of_range ] ..|].
    exists w'. split; [exact Hrun|]. split; [exact Hp|]. by rewrite Htok, tokens_after.
Qed.

(** [operate] on a fine-tunable shutter for OPEN, CLOSE or HALF returns
    [True] after starting one thread; once that thread has run, with no
    other call in between and a channel that starts, the stored percent is
    the target: 0, 100, the override or the halfway percent, clamped to
    0..100. *)
Theorem operate_then_thread_reaches_target raw hw cl off op st half now fuel w :
  calibrated c (lower raw) hw cl off op ->
  fine_tunable c (lower raw) = true ->
  st <> STOP ->
  (forall cmd, channel cmd hw <> LaunchError) ->
  (100 <= fuel)%nat ->
  exists w1 desired k w2,
    operate c channel raw st half now w = (Returned true, w1)
    /\ trace w1 = (trace w ++ [Spawn (lower raw) (Some desired) k])%list
    /\ Some desired
       = match st with
         | OPEN => Some 0
         | CLOSE => Some 100
         | _ => match half with
                | Some p => Some p
                | None => get_halfway_percent c (lower raw)
                end
         end
    /\ run_thread c channel fuel (lower raw) (Some desired) k w1 = (Returned tt, w2)
    /\ get_current_state_percent w2 (lower raw) = Some (clamp desired).
Proof.
  intros Hc Hft Hst Hch Hfuel.
  pose proof Hc as (Hl & Hs & Hk & _).
  rewrite (operate_enter c channel raw st half now hw w Hs Hk). cbn zeta.
  assert (Hsync : synchronous c (lower raw) st = false).
  { unfold synchronous. rewrite Hft. by destruct st. }
  rewrite Hsync, Hft.
  assert (Hhalf : exists h, get_halfway_percent c (lower raw) = Some h).
  { unfold fine_tunable in Hft. apply andb_prop in Hft as [_ Hh].
    by apply bool_decide_eq_true_1 in Hh as [h Eh]; exists h. }
  destruct Hhalf as [h Hh].
  set (k := minted (_shutter_thread_tokens w !! lower raw) now).
  set (desired := match st with
                  | OPEN => 0 | CLOSE => 100
                  | _ => match half with Some p => p | None => h end
                  end).
  set (w1 := World (<[lower raw := k]> (_shutter_thread_tokens w)) (_shutter_state w)
                   (_shutter_state_percent w)
                   (trace w ++ [Spawn (lower raw) (Some desired) k])).
  destruct (thread_reaches (lower raw) hw cl off op fuel desired k w1 Hc Hch)
    as (w2 & Hrun & Hp & _); [apply lookup_insert_eq|done|].
  exists w1, desired, k, w2. repeat split; try done.
  - unfold w1, desired. rewrite Hh. destruct st, half; done.
  - unfold desired. rewrite Hh. destruct st, half; done.
Qed.

End Reach.

(** ** Time spent sleeping *)

Lemma slept_app a b : (slept (a ++ b) == slept a + slept b)%Q.
Proof.
  induction a as [|e a IH]; cbn; [ring|].
  destruct e; rewrite ?IH; ring.
Qed.

Lemma inject_succ n : (inject_Z (Z.of_nat (S n)) == inject_Z (Z.of_nat n) + 1)%Q.
Proof. rewrite Nat2Z.inj_succ, <- Z.add_1_r, inject_Z_plus. reflexivity. Qed.

Lemma travel_time_plain off one inc n : forall cur,
  (forall k, (k < n)%nat -> crosses_boundary (cur + inc * Z.of_nat k) inc = false) ->
  (travel_time off one inc cur n == inject_Z (Z.of_nat n) * one)%Q.
Proof.
  induction n as [|n IH]; intros cur H; cbn [travel_time].
  - cbn. ring.
  - rewrite IH.
    + unfold step_delay. specialize (H O ltac:(lia)).
      rewrite Z.mul_0_r, Z.add_0_r in H. rewrite H, inject_succ. ring.
    + intros k Hk. specialize (H (S k) ltac:(lia)).
      replace (cur + inc + inc * Z.of_nat k) with (cur + inc * Z.of_nat (S k)) by lia.
      exact H.
Qed.

Lemma travel_time_last off one inc n : forall cur,
  (travel_time off one inc cur (S n)
   == travel_time off one inc cur n + step_delay off one (cur + inc * Z.of_nat n) inc)%Q.
Proof.
  induction n as [|n IH]; intros cur.
  - cbn [travel_time]. rewrite Z.mul_0_r, Z.add_0_r. ring.
  - cbn [travel_time] in *. rewrite IH.
    replace (cur + inc + inc * Z.of_nat n) with (cur + inc * Z.of_nat (S n)) by lia.
    ring.
Qed.

Section Timing.

Context (c : config) (channel : string -> string -> chan_result).

Lemma slept_written ok sh p : slept (written c ok sh p) = 0%Q.
Proof. by destruct ok. Qed.

Lemma slept_sent ok cmd hw : slept (sent ok cmd hw) = if ok then (_SEND_COMMAND_DELAY + 0)%Q else 0%Q.
Proof. by destruct ok. Qed.

Lemma slept_loop_plan ok sh off one inc n : forall cur,
  (slept (loop_plan c ok sh off one inc cur (S n))
   == travel_time off one inc (cur + inc) n)%Q.
Proof.
  induction n as [|n IH]; intros cur.
  - rewrite loop_plan_1, slept_written. reflexivity.
  - rewrite loop_plan_S, slept_app, slept_written. cbn [slept travel_time].
    rewrite IH. ring.
Qed.

Lemma crosses_closing p : crosses_boundary p 1 = (p =? 99).
Proof. unfold crosses_boundary. cbn. by rewrite andb_false_r, andb_true_r. Qed.

Lemma crosses_opening p : crosses_boundary p (-1) = (p =? 100).
Proof. unfold crosses_boundary. cbn. by rewrite andb_false_r, andb_true_r, orb_false_r. Qed.

Lemma travel_time_closing off one cur n :
  0 <= cur -> cur + Z.of_nat (S n) <= 100 ->
  (travel_time off one 1 cur (S n)
   == if cur + Z.of_nat (S n) =? 100
      then off + inject_Z (Z.of_nat n) * one
      else inject_Z (Z.of_nat (S n)) * one)%Q.
Proof.
  intros Hcur Hd. destruct (Z.eqb_spec (cur + Z.of_nat (S n)) 100) as [E|E].
  - rewrite travel_time_last, travel_time_plain.
    + unfold step_delay. rewrite crosses_closing.
      destruct (Z.eqb_spec (cur + 1 * Z.of_nat n) 99); [ring|lia].
    + intros k Hk. rewrite crosses_closing. apply Z.eqb_neq. lia.
  - apply travel_time_plain. intros k Hk. rewrite crosses_closing. apply Z.eqb_neq. lia.
Qed.

Lemma travel_time_opening off one cur n :
  cur <= 100 ->
  (travel_time off one (-1) cur (S n)
   == if cur =? 100
      then off + inject_Z (Z.of_nat n) * one
      else inject_Z (Z.of_nat (S n)) * one)%Q.
Proof.
  intros Hcur. destruct (Z.eqb_spec cur 100) as [E|E].
  - cbn [travel_time]. rewrite travel_time_plain.
    + unfold step_delay. rewrite crosses_opening, E. reflexivity.
    + intros k Hk. rewrite crosses_opening. apply Z.eqb_neq. lia.
  - apply travel_time_plain. intros k Hk. rewrite crosses_opening. apply Z.eqb_neq. lia.
Qed.

Lemma first_step_delay_long off one cur inc :
  (_SEND_COMMAND_DELAY < step_delay off one cur inc)%Q ->
  (first_step_delay off one cur inc
   == step_delay off one cur inc - _SEND_COMMAND_DELAY + _START_MOVING_DELAY)%Q.
Proof.
  intros H. unfold first_step_delay, Qlt_bool.
  destruct (Qle_bool (step_delay off one cur inc - _SEND_COMMAND_DELAY) 0) eqn:E;
    cbn [negb]; [|reflexivity].
  apply Qle_bool_iff in E. lra.
Qed.

(** In a move from a known percent, the thread holding the registered
    token sleeps, all told, the nominal travel time (one per-percent delay
    for each step, [closedOffsetSec] instead for a step across 99%/100%)
    plus the start-up delay, plus the command spacing after a STOP:
    the spacing after the direction command is taken off the first sleep.
    This needs the delay of the first step to exceed that spacing. *)
Theorem move_sleeps_travel_time sh hw cl off op fuel d tok cur w :
  calibrated c sh hw cl off op ->
  (forall cmd, channel cmd hw <> LaunchError) ->
  _shutter_thread_tokens w !! sh = Some tok ->
  get_current_state_percent w sh = Some cur ->
  cur <> clamp d ->
  (steps_between cur (clamp d) <= fuel)%nat ->
  let opening := clamp d <? cur in
  let one_percent_delay := ((if opening then op else cl) / 99)%Q in
  let crossing := if opening then cur =? 100 else clamp d =? 100 in
  (_SEND_COMMAND_DELAY
   < step_delay off one_percent_delay cur (if opening then -1 else 1))%Q ->
  exists w' evs,
    _move_to_state_percent c channel fuel sh d tok w = (Returned tt, w')
    /\ trace w' = (trace w ++ evs)%list
    /\ (slept evs
        == (if crossing
            then off + inject_Z (Z.of_nat (steps_between cur (clamp d)) - 1) * one_percent_delay
            else inject_Z (Z.of_nat (steps_between cur (clamp d))) * one_percent_delay)
           + _START_MOVING_DELAY
           + (if (0 <? clamp d) && (clamp d <? 100) then _SEND_COMMAND_DELAY else 0))%Q.
Proof.
  intros Hc Hch Ht Hcur Hne Hfuel opening one crossing Hfirst.
  pose proof (get_current_state_percent_range _ _ _ Hcur) as Hr.
  pose proof (clamp_range d) as Hd.
  rewrite (move_known_run c channel fuel sh d tok cur w Hcur).
  rewrite (move_from_run c channel sh hw cl off op fuel (clamp d) cur tok tok w
             Hc Hch Ht Hr Hd Hne Hfuel).
  eexists _, _. split; [reflexivity|]. split; [by rewrite trace_after|].
  rewrite Z.eqb_refl. unfold move_plan. fold opening. fold one.
  destruct (steps_between_pos cur (clamp d) Hne) as [n Hn]. rewrite Hn.
  rewrite !slept_app, slept_sent, slept_loop_plan. cbn [slept].
  rewrite (first_step_delay_long _ _ _ _ Hfirst).
  assert (Hstop : (slept (if (0 <? clamp d) && (clamp d <? 100)
                          then sent true "pause" hw else [])
                   == if (0 <? clamp d) && (clamp d <? 100)
                      then _SEND_COMMAND_DELAY else 0)%Q).
  { destruct (_ && _); cbn; ring. }
  rewrite Hstop. clear Hstop.
  assert (Htravel :
    (step_delay off one cur (if opening then -1 else 1)
     + travel_time off one (if opening then -1 else 1)
         (cur + (if opening then -1 else 1)) n
     == if crossing then off + inject_Z (Z.of_nat (S n) - 1) * one
        else inject_Z (Z.of_nat (S n)) * one)%Q).
  { change (step_delay off one cur (if opening then -1 else 1)
            + travel_time off one (if opening then -1 else 1)
                (cur + (if opening then -1 else 1)) n)%Q
      with (travel_time off one (if opening then -1 else 1) cur (S n)).
    replace (Z.of_nat (S n) - 1) with (Z.of_nat n) by lia.
    unfold crossing, steps_between in *. unfold opening in *.
    destruct (Z.ltb_spec (clamp d) cur).
    - apply travel_time_opening. lia.
    - replace (clamp d) with (cur + Z.of_nat (S n)) by lia.
      apply travel_time_closing; lia. }
  rewrite <- Htravel. ring.
Qed.

End Timing.

(** ** What the loader stores *)

Lemma load_section_stores cfg sec cfg' :
  load_section cfg sec = Returned cfg' ->
  _shutters cfg !! alias_of sec = None
  /\ exists name,
       opt_name sec = Some name
       /\ _shutters cfg' = <[alias_of sec := name]> (_shutters cfg)
       /\ _shutter_halfway cfg' = <[alias_of sec := halfway_of sec]> (_shutter_halfway cfg)
       /\ (if truthy (opt_close sec)
           then exists cl off op,
                  opt_close sec = Some cl /\ opt_offset sec = Some off
                  /\ opt_open sec = Some op
                  /\ _shutter_delay_close cfg'
                     = <[alias_of sec := floor0 cl]> (_shutter_delay_close cfg)
                  /\ _shutter_closed_offset cfg'
                     = <[alias_of sec := floor0 off]> (_shutter_closed_offset cfg)
                  /\ _shutter_delay_open cfg'
                     = <[alias_of sec := floor0 op]> (_shutter_delay_open cfg)
           else _shutter_delay_close cfg' = _shutter_delay_close cfg
                /\ _shutter_closed_offset cfg' = _shutter_closed_offset cfg
                /\ _shutter_delay_open cfg' = _shutter_delay_open cfg).
Proof.
  unfold load_section, alias_of.
  destruct (opt_name sec) as [name|]; [|discriminate].
  destruct (_shutters cfg !! lower (sec_title sec)) as [old|] eqn:Hs.
  { rewrite bool_decide_eq_true_2 by eauto. discriminate. }
  rewrite bool_decide_eq_false_2 by (intros [? [=]]).
  destruct (_ && _); [discriminate|].
  assert (Hh : (if (if default 50 (opt_halfway sec) <? 0 then 0
                    else default 50 (opt_halfway sec)) >? 99 then 99
                else if default 50 (opt_halfway sec) <? 0 then 0
                     else default 50 (opt_halfway sec)) = halfway_of sec).
  { unfold halfway_of. destruct (Z.ltb_spec (default 50 (opt_halfway sec)) 0).
    - destruct (Z.gtb_spec 0 99); lia.
    - destruct (Z.gtb_spec (default 50 (opt_halfway sec)) 99); lia. }
  destruct (truthy (opt_close sec)).
  - destruct (opt_close sec) as [cl|], (opt_offset sec) as [off|], (opt_open sec) as [op|];
      try discriminate.
    intros [= <-]. cbn. rewrite Hh. split; [done|]. exists name.
    repeat split. exists cl, off, op. done.
  - intros [= <-]. cbn. rewrite Hh. split; [done|]. exists name. done.
Qed.

(** Sections loaded later leave the entries of other aliases alone. *)
Lemma load_sections_frame secs : forall cfg cfg' sh,
  load_sections cfg secs = Returned cfg' ->
  (forall sec, In sec secs -> alias_of sec <> sh) ->
  _shutters cfg' !! sh = _shutters cfg !! sh
  /\ _shutter_halfway cfg' !! sh = _shutter_halfway cfg !! sh
  /\ _shutter_delay_close cfg' !! sh = _shutter_delay_close cfg !! sh
  /\ _shutter_closed_offset cfg' !! sh = _shutter_closed_offset cfg !! sh
  /\ _shutter_delay_open cfg' !! sh = _shutter_delay_open cfg !! sh.
Proof.
  induction secs as [|sec rest IH]; intros cfg cfg' sh; cbn [load_sections].
  - by intros [= <-].
  - destruct (load_section cfg sec) as [c1| |] eqn:E; try discriminate.
    intros Hrest Hne.
    destruct (IH c1 cfg' sh Hrest) as (A & B & C & D & F);
      [intros s Hs; apply Hne; by right|].
    rewrite A, B, C, D, F. clear A B C D F.
    destruct (load_section_stores cfg sec c1 E) as (_ & name & _ & -> & -> & Hd).
    assert (Hsec : alias_of sec <> sh) by (apply Hne; by left).
    rewrite !lookup_insert_ne by done. repeat split.
    all: destruct (truthy (opt_close sec));
      [destruct Hd as (cl & off & op & _ & _ & _ & E1 & E2 & E3);
       rewrite ?E1, ?E2, ?E3; by rewrite lookup_insert_ne
      |destruct Hd as (E1 & E2 & E3); by rewrite ?E1, ?E2, ?E3].
Qed.

(** Sections that load have aliases that are new and pairwise different. *)
Lemma load_sections_fresh secs : forall cfg cfg',
  load_sections cfg secs = Returned cfg' ->
  NoDup (map alias_of secs)
  /\ forall sec, In sec secs -> _shutters cfg !! alias_of sec = None.
Proof.
  induction secs as [|sec rest IH]; intros cfg cfg'; cbn [load_sections map].
  - intros _. split; [constructor|intros ? []].
  - destruct (load_section cfg sec) as [c1| |] eqn:E; try discriminate.
    intros Hrest. destruct (IH c1 cfg' Hrest) as (Hnd & Hfresh).
    destruct (load_section_stores cfg sec c1 E) as (Hnew & name & _ & Hs & _).
    assert (Hother : forall s, In s rest -> alias_of s <> alias_of sec).
    { intros s Hin Heq. specialize (Hfresh s Hin).
      rewrite Hs, Heq, lookup_insert_eq in Hfresh. discriminate. }
    split.
    + constructor; [|exact Hnd].
      rewrite list_elem_of_In, in_map_iff. intros (s & Heq & Hin). by apply (Hother s).
    + intros s [<-|Hin]; [exact Hnew|].
      specialize (Hfresh s Hin). rewrite Hs, lookup_insert_ne in Hfresh; [done|].
      intros Heq. by apply (Hother s).
Qed.

Lemma load_sections_app a : forall b cfg cfg',
  load_sections cfg (a ++ b) = Returned cfg' ->
  exists c1, load_sections cfg a = Returned c1 /\ load_sections c1 b = Returned cfg'.
Proof.
  induction a as [|sec a IH]; intros b cfg cfg'; cbn [load_sections app].
  - eauto.
  - destruct (load_section cfg sec) as [c1| |]; try discriminate. apply IH.
Qed.

(** The entry of a section in the configuration loaded from a list that
    holds it. *)
Lemma loaded_entry secs cfg sec :
  load_config secs = Returned cfg ->
  In sec secs ->
  _shutters cfg !! alias_of sec = opt_name sec
  /\ _shutter_halfway cfg !! alias_of sec = Some (halfway_of sec)
  /\ (if truthy (opt_close sec)
      then _shutter_delay_close cfg !! alias_of sec = floor0 <$> opt_close sec
           /\ _shutter_closed_offset cfg !! alias_of sec = floor0 <$> opt_offset sec
           /\ _shutter_delay_open cfg !! alias_of sec = floor0 <$> opt_open sec
           /\ is_Some (opt_offset sec) /\ is_Some (opt_open sec)
      else _shutter_delay_close cfg !! alias_of sec = None
           /\ _shutter_closed_offset cfg !! alias_of sec = None
           /\ _shutter_delay_open cfg !! alias_of sec = None).
Proof.
  intros Hload Hin. apply in_split in Hin as (pre & post & ->).
  unfold load_config in Hload.
  destruct (load_sections_app pre (sec :: post) _ _ Hload) as (c1 & Hpre & Hrest).
  cbn [load_sections] in Hrest.
  destruct (load_section c1 sec) as [c2| |] eqn:E; try discriminate.
  destruct (load_sections_fresh (sec :: post) c1 cfg) as (Hnd & _).
  { cbn [load_sections]. by rewrite E. }
  cbn [map] in Hnd. apply NoDup_cons in Hnd as (Hnotin & _).
  destruct (load_sections_frame post c2 cfg (alias_of sec) Hrest) as (A & B & C & D & F).
  { intros s Hs Heq. apply Hnotin. rewrite list_elem_of_In, in_map_iff. eauto. }
  rewrite A, B, C, D, F. clear A B C D F.
  destruct (load_section_stores c1 sec c2 E) as (Hnew & name & Hname & -> & -> & Hd).
  rewrite !lookup_insert_eq, Hname. repeat split.
  destruct (load_sections_ok pre empty_config c1) as (_ & _ & Hdom & _); [|exact Hpre|].
  { apply (load_config_ok []). reflexivity. }
  destruct (truthy (opt_close sec)).
  - destruct Hd as (cl & off & op & -> & -> & -> & -> & -> & ->).
    rewrite !lookup_insert_eq. cbn. repeat split; eauto.
  - destruct Hd as (-> & -> & ->).
    assert (Hnone : _shutter_delay_close c1 !! alias_of sec = None).
    { destruct (_shutter_delay_close c1 !! alias_of sec) eqn:Ec; [|done].
      destruct (Hdom (alias_of sec)) as [? Hx]; [eauto|]. congruence. }
    assert (Htog : delays_together c1).
    { apply (load_sections_delays_together pre empty_config c1); [|exact Hpre].
      intros sh. cbn. rewrite !lookup_empty. split; split; intros [? [=]]. }
    destruct (Htog (alias_of sec)) as [Ho Hp]. rewrite Hnone in Ho, Hp.
    repeat split; [done| |].
    + destruct (_shutter_closed_offset c1 !! alias_of sec) eqn:Eo; [|done].
      destruct Ho as [_ Ho]. destruct Ho as [? [=]]. eauto.
    + destruct (_shutter_delay_open c1 !! alias_of sec) eqn:Eo; [|done].
      destruct Hp as [_ Hp]. destruct Hp as [? [=]]. eauto.
Qed.

(** The three facts below read [loaded_entry] for the user of a loaded
    configuration. *)

(** After a successful load no two sections share a lower-cased title,
    every section's lower-cased title maps to its [name] option, and
    [_shutters] holds no other key. *)
Theorem loaded_aliases_distinct_and_named secs cfg :
  load_config secs = Returned cfg ->
  NoDup (map alias_of secs)
  /\ (forall sec, In sec secs ->
        is_Some (opt_name sec) /\ _shutters cfg !! alias_of sec = opt_name sec)
  /\ (forall sh hw, _shutters cfg !! sh = Some hw ->
        exists sec, In sec secs /\ alias_of sec = sh /\ opt_name sec = Some hw).
Proof.
  intros Hload. split; [|split].
  - apply (load_sections_fresh secs empty_config cfg Hload).
  - intros sec Hin. destruct (loaded_entry secs cfg sec Hload Hin) as (Hs & _).
    split; [|exact Hs].
    apply in_split in Hin as (pre & post & ->).
    destruct (load_sections_app pre (sec :: post) _ _ Hload) as (c1 & _ & Hrest).
    cbn [load_sections] in Hrest.
    destruct (load_section c1 sec) as [c2| |] eqn:E; try discriminate.
    destruct (load_section_stores c1 sec c2 E) as (_ & name & -> & _). eauto.
  - intros sh hw Hs.
    destruct (decide (Exists (fun sec => alias_of sec = sh) secs)) as [Hex|Hno].
    + apply Exists_exists in Hex as (sec & Hin%list_elem_of_In & Heq).
      exists sec. split; [done|]. split; [done|].
      destruct (loaded_entry secs cfg sec Hload Hin) as (Hs' & _). congruence.
    + destruct (load_sections_frame secs empty_config cfg sh Hload) as (A & _).
      { intros sec Hin Heq. apply Hno, Exists_exists. exists sec.
        split; [by apply list_elem_of_In|done]. }
      rewrite A in Hs. cbn in Hs. rewrite lookup_empty in Hs. discriminate.
Qed.

(** A loaded shutter is fine-tunable exactly when its section gives a
    non-zero [close]; a [close] of 0 loads it as a basic shutter even with
    all three delays given.  For a fine-tunable one the three getters give
    the configured delays, negative ones raised to 0. *)
Theorem loaded_fine_tunable_iff_close secs cfg sec :
  load_config secs = Returned cfg ->
  In sec secs ->
  fine_tunable cfg (alias_of sec) = truthy (opt_close sec)
  /\ (truthy (opt_close sec) = true ->
      get_full_length_delay cfg (alias_of sec) CLOSE = floor0 <$> opt_close sec
      /\ get_closed_offset_delay cfg (alias_of sec) = floor0 <$> opt_offset sec
      /\ get_full_length_delay cfg (alias_of sec) OPEN = floor0 <$> opt_open sec
      /\ is_Some (opt_offset sec) /\ is_Some (opt_open sec)).
Proof.
  intros Hload Hin. destruct (loaded_entry secs cfg sec Hload Hin) as (_ & Hh & Hd).
  unfold fine_tunable, get_full_length_delay, get_closed_offset_delay.
  destruct (truthy (opt_close sec)) eqn:Ht.
  - destruct Hd as (-> & -> & -> & [off Eo] & [op Ep]). rewrite Hh, Eo, Ep.
    destruct (opt_close sec) as [cl|]; [|discriminate]. cbn.
    split; [reflexivity|intros _; repeat split; eauto].
  - destruct Hd as (-> & _). split; [reflexivity|discriminate].
Qed.

(** The halfway percent of a loaded shutter is the configured one, 50 when
    the section gives none, brought into 0..99. *)
Theorem loaded_halfway_default_and_range secs cfg sec :
  load_config secs = Returned cfg ->
  In sec secs ->
  exists h,
    get_halfway_percent cfg (alias_of sec) = Some h
    /\ 0 <= h <= 99
    /\ (opt_halfway sec = None -> h = 50)
    /\ (forall p, opt_halfway sec = Some p -> 0 <= p <= 99 -> h = p).
Proof.
  intros Hload Hin. destruct (loaded_entry secs cfg sec Hload Hin) as (_ & Hh & _).
  exists (halfway_of sec). split; [exact Hh|]. unfold halfway_of.
  split; [lia|]. split.
  - intros ->. cbn. lia.
  - intros p -> Hp. cbn. lia.
Qed.

(** ** Texts *)

Lemma length_lower s : String.length (lower s) = String.length s.
Proof. induction s as [|a s IH]; simpl; congruence. Qed.

Lemma append_nil (b : string) : "" ++ b = b.
Proof. reflexivity. Qed.

Lemma append_cons x (a b : string) : String x a ++ b = String x (a ++ b).
Proof. reflexivity. Qed.

Lemma length_append a b : String.length (a ++ b) = (String.length a + String.length b)%nat.
Proof.
  induction a as [|x a IH]; [done|]. rewrite append_cons. simpl. by rewrite IH.
Qed.

Lemma append_assoc (a b d : string) : (a ++ b) ++ d = a ++ b ++ d.
Proof. induction a as [|x a IH]; [done|]. rewrite !append_cons. by rewrite IH. Qed.

Lemma append_empty (a : string) : a ++ "" = a.
Proof. induction a as [|x a IH]; [done|]. rewrite append_cons. by rewrite IH. Qed.

Lemma drop_chars_append a b : drop_chars (String.length a) (a ++ b) = b.
Proof.
  induction a as [|x a IH]; [by destruct b|]. rewrite append_cons. exact IH.
Qed.

Lemma has_char_append x a b : has_char x (a ++ b) = has_char x a || has_char x b.
Proof.
  induction a as [|y a IH]; [done|]. rewrite append_cons. simpl.
  by rewrite IH, orb_assoc.
Qed.

Lemma lower_ascii_colon a : Ascii.eqb (lower_ascii a) ":" = Ascii.eqb a ":".
Proof. destruct a as [[] [] [] [] [] [] [] []]; reflexivity. Qed.

Lemma upper_ascii_slash a : Ascii.eqb (upper_ascii a) "/" = Ascii.eqb a "/".
Proof. destruct a as [[] [] [] [] [] [] [] []]; reflexivity. Qed.

Lemma has_colon_lower s : has_char ":" (lower s) = has_char ":" s.
Proof. induction s as [|a s IH]; simpl; [done|]. by rewrite lower_ascii_colon, IH. Qed.

Lemma has_slash_upper s : has_char "/" (upper s) = has_char "/" s.
Proof. induction s as [|a s IH]; simpl; [done|]. by rewrite upper_ascii_slash, IH. Qed.

Lemma shutter_word_no_colon type : lower type = "shutter" -> has_char ":" type = false.
Proof. intros H. by rewrite <- has_colon_lower, H. Qed.

Lemma state_name_no_slash op s :
  ShutterState_of_name (upper op) = Some s -> has_char "/" op = false.
Proof.
  rewrite <- has_slash_upper. unfold ShutterState_of_name.
  destruct (String.eqb_spec (upper op) "OPEN") as [->|_]; [done|].
  destruct (String.eqb_spec (upper op) "CLOSE") as [->|_]; [done|].
  destruct (String.eqb_spec (upper op) "STOP") as [->|_]; [done|].
  destruct (String.eqb_spec (upper op) "HALF") as [->|_]; [done|].
  discriminate.
Qed.

(** ** Splitting and joining *)

Lemma split_not_nil sep s : split sep s <> [].
Proof.
  destruct s as [|a s]; simpl; [done|].
  destruct (Ascii.eqb a sep); [done|]. by destruct (split sep s).
Qed.

Lemma split_whole sep s : has_char sep s = false -> split sep s = [s].
Proof.
  induction s as [|a s IH]; simpl; [done|].
  intros [Ha Hs]%orb_false_iff. rewrite Ha, (IH Hs). done.
Qed.

Lemma split_append sep a b :
  has_char sep a = false -> split sep (a ++ String sep b) = a :: split sep b.
Proof.
  induction a as [|x a IH].
  - intros _. rewrite append_nil. simpl. by rewrite Ascii.eqb_refl.
  - rewrite append_cons. simpl. intros [Hx Ha]%orb_false_iff. rewrite Hx, (IH Ha). done.
Qed.

Lemma split_join sep names :
  names <> [] ->
  Forall (fun name => has_char sep name = false) names ->
  split sep (join (String sep "") names) = names.
Proof.
  induction names as [|name rest IH]; [done|]. intros _ Hall.
  apply Forall_cons in Hall as [Hname Hrest].
  destruct rest as [|next rest].
  - simpl. by apply split_whole.
  - change (join (String sep "") (name :: next :: rest))
      with (name ++ String sep (join (String sep "") (next :: rest))).
    rewrite split_append by done. by rewrite IH.
Qed.

Lemma join_split sep s : join (String sep "") (split sep s) = s.
Proof.
  induction s as [|a s IH]; simpl; [done|].
  destruct (Ascii.eqb_spec a sep) as [->|_].
  - pose proof (split_not_nil sep s) as Hne.
    destruct (split sep s) as [|f fs]; [done|].
    change (String sep (join (String sep "") (f :: fs)) = String sep s). by rewrite IH.
  - pose proof (split_not_nil sep s) as Hne.
    destruct (split sep s) as [|f fs]; [done|].
    destruct fs as [|g fs]; simpl in *; by rewrite <- IH.
Qed.

Lemma split_fields_clean sep s :
  Forall (fun field => has_char sep field = false) (split sep s).
Proof.
  induction s as [|a s IH]; simpl.
  - by constructor.
  - destruct (Ascii.eqb a sep) eqn:E; [by constructor|].
    destruct (split sep s) as [|f fs]; [by constructor; [simpl; rewrite E|]|].
    apply Forall_cons in IH as [Hf Hfs]. constructor; [|done]. simpl. by rewrite E, Hf.
Qed.

(** A text with a first and a second field, and what follows them. *)
Lemma split_two sep s f0 f1 f2 fs :
  split sep s = f0 :: f1 :: f2 :: fs ->
  s = f0 ++ String sep (f1 ++ String sep (join (String sep "") (f2 :: fs))).
Proof.
  intros H. rewrite <- (join_split sep s) at 1. rewrite H. reflexivity.
Qed.

(** ** Parsing actions *)

Lemma drop_chars_fields (a b d : string) :
  drop_chars (String.length a + String.length b + 2) (a ++ ":" ++ b ++ ":" ++ d) = d.
Proof.
  replace (String.length a + String.length b + 2)%nat
    with (String.length ((a ++ ":") ++ b ++ ":")).
  - rewrite <- (drop_chars_append ((a ++ ":") ++ b ++ ":") d) at 2.
    by rewrite !append_assoc.
  - rewrite !length_append. simpl. lia.
Qed.

Lemma join_clean x sep names :
  Ascii.eqb sep x = false ->
  Forall (fun name => has_char x name = false) names ->
  has_char x (join (String sep "") names) = false.
Proof.
  intros Hsep. induction names as [|name rest IH]; [done|].
  intros [Hname Hrest]%Forall_cons. destruct rest as [|next rest]; [done|].
  change (join (String sep "") (name :: next :: rest))
    with (name ++ String sep (join (String sep "") (next :: rest))).
  rewrite has_char_append, Hname. simpl. rewrite Hsep. by apply IH.
Qed.

(** The fields of a text whose first two fields hold no colon. *)
Lemma split_action (type name data : string) :
  has_char ":" type = false -> has_char ":" name = false ->
  split ":" (type ++ ":" ++ name ++ ":" ++ data) = type :: name :: split ":" data.
Proof.
  intros Ht Hn.
  change (type ++ ":" ++ name ++ ":" ++ data)
    with (type ++ String ":" (name ++ String ":" data)).
  by rewrite !split_append.
Qed.

(** [str2action] on a text with three fields or more. *)
Lemma str2action_fields (type name data : string) :
  has_char ":" type = false -> has_char ":" name = false ->
  str2action (type ++ ":" ++ name ++ ":" ++ data)
  = if String.eqb (lower type) "shutter"
    then ShutterAction_init (Some name) (Some data)
    else Failed ActionValueError.
Proof.
  intros Ht Hn. unfold str2action. rewrite (split_action _ _ _ Ht Hn).
  pose proof (split_not_nil ":" data) as Hne.
  destruct (split ":" data) as [|f fs]; [done|].
  cbn [length nth Nat.ltb Nat.leb]. cbv beta iota zeta.
  by rewrite length_lower, drop_chars_fields.
Qed.

(** The text [str2action] was given, from its fields. *)
Lemma str2action_built text a :
  str2action text = Built a ->
  exists type name data,
    text = type ++ ":" ++ name ++ ":" ++ data
    /\ has_char ":" type = false /\ has_char ":" name = false
    /\ lower type = "shutter"
    /\ ShutterAction_init (Some name) (Some data) = Built a.
Proof.
  intros H.
  pose proof (split_fields_clean ":" text) as Hclean.
  destruct (split ":" text) as [|f0 [|f1 [|f2 fs]]] eqn:E.
  - by apply split_not_nil in E.
  - unfold str2action in H. rewrite E in H. cbn in H.
    by destruct (String.eqb (lower f0) "shutter").
  - unfold str2action in H. rewrite E in H. cbn in H.
    by destruct (String.eqb (lower f0) "shutter").
  - apply Forall_cons in Hclean as [H0 Hclean]. apply Forall_cons in Hclean as [H1 _].
    pose proof (split_two _ _ _ _ _ _ E) as Htext.
    exists f0, f1, (join ":" (f2 :: fs)). split; [exact Htext|].
    split; [done|]. split; [done|].
    rewrite Htext in H.
    change (f0 ++ String ":" (f1 ++ String ":" (join ":" (f2 :: fs))))
      with (f0 ++ ":" ++ f1 ++ ":" ++ join ":" (f2 :: fs)) in H.
    rewrite str2action_fields in H by done.
    destruct (String.eqb_spec (lower f0) "shutter"); [done|discriminate].
Qed.

(** A text in the documented form
    [shutter:name[+name...]:operation[/operation_long]] is parsed into the
    names and the two states it spells, whatever the letter case of the type
    and of the operation words. *)
Theorem str2action_round_trip type names operation operation_long s :
  lower type = "shutter" ->
  names <> [] ->
  Forall (fun name => has_char ":" name = false /\ has_char "+" name = false) names ->
  ShutterState_of_name (upper operation) = Some s ->
  (forall l, operation_long = Some l -> is_Some (ShutterState_of_name (upper l))) ->
  str2action (action_text type names operation operation_long)
  = Built (MkShutterAction names s
             (match operation_long with
              | Some l => ShutterState_of_name (upper l)
              | None => None
              end)).
Proof.
  intros Htype Hne Hnames Hop Hlong. unfold action_text.
  assert (Hcolon : Forall (fun name => has_char ":" name = false) names).
  { eapply Forall_impl; [exact Hnames|]. by intros name [? _]. }
  assert (Hplus : Forall (fun name => has_char "+" name = false) names).
  { eapply Forall_impl; [exact Hnames|]. by intros name [_ ?]. }
  rewrite str2action_fields;
    [|by apply shutter_word_no_colon|by apply (join_clean ":" "+")].
  rewrite Htype. cbn [String.eqb Ascii.eqb Bool.eqb]. cbv iota.
  unfold ShutterAction_init. rewrite (split_join "+" names Hne Hplus).
  pose proof (state_name_no_slash _ _ Hop) as Hclean.
  destruct operation_long as [l|].
  - destruct (Hlong l eq_refl) as [s2 Hs2].
    pose proof (state_name_no_slash _ _ Hs2) as Hclean2.
    change (operation ++ "/" ++ l) with (operation ++ String "/" l).
    rewrite split_append, (split_whole "/" l) by done.
    cbn [length nth Nat.ltb Nat.leb]. by rewrite Hop, Hs2.
  - rewrite append_empty, split_whole by done.
    cbn [length nth Nat.ltb Nat.leb]. by rewrite Hop.
Qed.

(** Whatever ASCII text [str2action] turns into an action is in the
    documented form: a type word that lower-cases to [shutter], the shutter
    names joined by [+] (at least one, none holding a colon or a plus sign),
    and one or two operation words naming the action's states. *)
Theorem str2action_accepts_documented_form_only text a :
  isascii text = true ->
  str2action text = Built a ->
  exists type operation operation_long,
    text = action_text type (sa_shutters a) operation operation_long
    /\ lower type = "shutter"
    /\ sa_shutters a <> []
    /\ Forall (fun name => has_char ":" name = false /\ has_char "+" name = false)
         (sa_shutters a)
    /\ ShutterState_of_name (upper operation) = Some (sa_state a)
    /\ match operation_long with
       | Some l => ShutterState_of_name (upper l)
       | None => None
       end = sa_state_long a
    /\ (forall l, operation_long = Some l -> is_Some (sa_state_long a)).
Proof.
  intros _ H.
  destruct (str2action_built text a H) as (type & name & data & -> & Ht & Hn & Hty & Hinit).
  unfold ShutterAction_init in Hinit.
  pose proof (join_split "/" data) as Hdata.
  pose proof (join_split "+" name) as Hname.
  pose proof (split_fields_clean "+" name) as Hplus.
  assert (Hcolon : Forall (fun field => has_char ":" field = false) (split "+" name)).
  { clear -Hn. rewrite <- (join_split "+" name) in Hn.
    induction (split "+" name) as [|f fs IH]; [constructor|].
    destruct fs as [|g fs]; [by repeat constructor|].
    change (join "+" (f :: g :: fs)) with (f ++ String "+" (join "+" (g :: fs))) in Hn.
    rewrite has_char_append in Hn. apply orb_false_iff in Hn as [Hf Hrest].
    constructor; [done|]. apply IH. exact Hrest. }
  assert (Hboth : Forall (fun f => has_char ":" f = false /\ has_char "+" f = false)
                    (split "+" name)).
  { apply Forall_forall. intros f Hin. split.
    - by apply (proj1 (Forall_forall _ _) Hcolon).
    - by apply (proj1 (Forall_forall _ _) Hplus). }
  destruct (split "/" data) as [|o [|l [|x xs]]] eqn:E.
  - by apply split_not_nil in E.
  - cbn [length nth Nat.ltb Nat.leb] in Hinit.
    destruct (ShutterState_of_name (upper o)) as [s|] eqn:Es; [|discriminate].
    injection Hinit as <-. exists type, o, None. cbn.
    split; [|by repeat split; try apply split_not_nil].
    unfold action_text. rewrite Hname, append_empty. cbn in Hdata. by rewrite Hdata.
  - cbn [length nth Nat.ltb Nat.leb] in Hinit.
    destruct (ShutterState_of_name (upper o)) as [s|] eqn:Es; [|discriminate].
    destruct (ShutterState_of_name (upper l)) as [s2|] eqn:El; [|discriminate].
    injection Hinit as <-. exists type, o, (Some l). cbn.
    split; [|by repeat split; eauto; try apply split_not_nil].
    unfold action_text. rewrite Hname. by rewrite <- Hdata.
  - discriminate.
Qed.

(** [str2action] lets an [AttributeError] through exactly for the type word
    [shutter] (in any letter case) given alone, with no colon after it. *)
Theorem str2action_attribute_error_iff text :
  str2action text = Failed ActionAttributeError <-> lower text = "shutter".
Proof.
  split.
  - intros H. pose proof (join_split ":" text) as Htext.
    unfold str2action in H.
    destruct (split ":" text) as [|f0 [|f1 [|f2 fs]]] eqn:E.
    + by apply split_not_nil in E.
    + cbn in Htext. subst f0. cbn in H.
      destruct (String.eqb_spec (lower text) "shutter"); [done|discriminate].
    + cbn in H. by destruct (String.eqb (lower f0) "shutter").
    + cbn [length nth Nat.ltb Nat.leb] in H. cbv beta iota zeta in H.
      destruct (String.eqb (lower f0) "shutter"); [|discriminate].
      unfold ShutterAction_init in H.
      destruct (2 <? length _)%nat; [discriminate|].
      destruct (ShutterState_of_name _); [|discriminate].
      destruct (1 <? length _)%nat; [|discriminate].
      by destruct (ShutterState_of_name _).
  - intros H. unfold str2action.
    rewrite (split_whole ":" text) by by apply shutter_word_no_colon.
    cbn. by rewrite H.
Qed.

(** ** Running actions *)

Section Run.

Context (c : config) (channel : string -> string -> chan_result) (clock : nat -> Z).

Lemma operate_each_cons call shutter rest st w :
  operate_each c channel clock call (shutter :: rest) st w
  = match operate c channel shutter st None (clock call) w with
    | (Returned _, w1) => operate_each c channel clock (S call) rest st w1
    | (Raised e, w1) => (Raised e, w1)
    | (Timeout, w1) => (Timeout, w1)
    end.
Proof. reflexivity. Qed.

Lemma operate_each_frame shutters st other : forall call w,
  other ∉ map lower shutters ->
  let w' := snd (operate_each c channel clock call shutters st w) in
  _shutter_thread_tokens w' !! other = _shutter_thread_tokens w !! other
  /\ _shutter_state w' !! other = _shutter_state w !! other
  /\ _shutter_state_percent w' = _shutter_state_percent w.
Proof.
  induction shutters as [|shutter rest IH]; intros call w Hnot; [done|].
  cbn [map] in Hnot. apply not_elem_of_cons in Hnot as [Hne Hrest].
  pose proof (frame_operate c channel shutter st None (clock call) w other Hne)
    as (A & B & _).
  pose proof (operate_keeps_percents c channel shutter st None (clock call) w) as P.
  rewrite operate_each_cons.
  destruct (operate c channel shutter st None (clock call) w) as [[b|e|] w1];
    cbn [snd] in *; try done.
  destruct (IH (S call) w1 Hrest) as (A' & B' & P'). cbn zeta.
  by rewrite A', B', P', A, B, P.
Qed.

Lemma operate_each_app before rest st : forall call w w1,
  operate_each c channel clock call before st w = (Returned tt, w1) ->
  operate_each c channel clock call (before ++ rest)%list st w
  = operate_each c channel clock (call + length before) rest st w1.
Proof.
  induction before as [|shutter before IH]; intros call w w1.
  - intros [= <-]. cbn [app length]. by rewrite Nat.add_0_r.
  - cbn [app length]. rewrite !operate_each_cons.
    destruct (operate c channel shutter st None (clock call) w) as [[b|e|] w0];
      try discriminate.
    intros H. rewrite (IH _ _ _ H). f_equal. lia.
Qed.

Lemma operate_unknown raw st half now w :
  _shutters c !! lower raw = None ->
  operate c channel raw st half now w = (Raised ValueError, w).
Proof.
  intros H. unfold operate. rewrite H.
  rewrite bool_decide_eq_false_2 by (intros [? ?]; discriminate). reflexivity.
Qed.

(** The state a run dispatches: the long-press state on release, the plain
    one otherwise. *)
Lemma run_unfold shutters st long secondary :
  ShutterAction_run c channel clock (MkShutterAction shutters st long) secondary
  = match (if secondary then long else Some st) with
    | Some s => operate_each c channel clock 0 shutters s
    | None => ret tt
    end.
Proof. by destruct secondary. Qed.

(** A run leaves alone every shutter it does not list (names compared in
    lower case), and writes no percent at all. *)
Theorem run_leaves_unlisted_shutters a secondary other w :
  other ∉ map lower (sa_shutters a) ->
  let w' := snd (ShutterAction_run c channel clock a secondary w) in
  _shutter_thread_tokens w' !! other = _shutter_thread_tokens w !! other
  /\ _shutter_state w' !! other = _shutter_state w !! other
  /\ _shutter_state_percent w' = _shutter_state_percent w.
Proof.
  intros Hnot. unfold ShutterAction_run.
  destruct secondary; [destruct (sa_state_long a)|]; try done;
    by apply operate_each_frame.
Qed.

(** A run over a list holding a shutter that is not configured raises
    [ValueError] there: the shutters listed before it have been operated
    (the world is the one a run over them alone gives) and the ones listed
    after it are not. *)
Theorem run_stops_at_unknown_shutter before unknown rest st long secondary w w1 :
  _shutters c !! lower unknown = None ->
  (secondary = true -> is_Some long) ->
  ShutterAction_run c channel clock (MkShutterAction before st long) secondary w
  = (Returned tt, w1) ->
  ShutterAction_run c channel clock
    (MkShutterAction (before ++ unknown :: rest) st long) secondary w
  = (Raised ValueError, w1).
Proof.
  intros Hunknown Hlong. rewrite !run_unfold.
  destruct (if secondary then long else Some st) as [s|] eqn:Es.
  - intros H. rewrite (operate_each_app _ _ _ _ _ _ H), operate_each_cons.
    by rewrite operate_unknown.
  - destruct secondary; [|discriminate]. destruct (Hlong eq_refl) as [s Hs].
    congruence.
Qed.

Lemma operate_each_dispatches st shutters :
  (forall command hw, channel command hw <> LaunchError) ->
  forall call w,
  Forall (fun shutter =>
            is_Some (_shutters c !! lower shutter)
            /\ lower shutter ∈ _shutter_locks c
            /\ synchronous c (lower shutter) st = true) shutters ->
  exists w',
    operate_each c channel clock call shutters st w = (Returned tt, w')
    /\ trace w' = (trace w ++ flat_map (dispatch_log c st) shutters)%list
    /\ _shutter_state_percent w' = _shutter_state_percent w
    /\ forall x, _shutter_state w' !! x
                 = if bool_decide (x ∈ map lower shutters) then Some st
                   else _shutter_state w !! x.
Proof.
  intros Hch. induction shutters as [|shutter rest IH]; intros call w Hall.
  - exists w. cbn [operate_each flat_map map]. rewrite app_nil_r.
    split; [done|]. split; [done|]. split; [done|]. intros x.
    by rewrite bool_decide_eq_false_2 by apply not_elem_of_nil.
  - apply Forall_cons in Hall as [([hw Hs] & Hlock & Hsync) Hrest].
    rewrite operate_each_cons, (operate_enter c channel shutter st None _ hw w Hs Hlock).
    cbv zeta. rewrite Hsync.
    destruct (synchronous_command c _ _ Hsync) as [cmd Hcmd].
    unfold bind at 1. cbn [set_state]. unfold bind at 1.
    rewrite (send_command_run c channel (lower shutter) st cmd hw _
               (lower_idem shutter) Hs Hcmd).
    destruct (channel cmd hw) as [status|] eqn:Ech; [|by apply Hch in Ech].
    cbn [ret trace _shutter_thread_tokens _shutter_state _shutter_state_percent].
    match goal with
    | |- context [operate_each _ _ _ (S call) rest st ?w1] =>
        destruct (IH (S call) w1 Hrest) as (w' & Hrun & Htr & Hp & Hst)
    end.
    exists w'. split; [exact Hrun|]. split; [|split].
    + rewrite Htr. cbn [trace flat_map].
      change (dispatch_log c st shutter)
        with [SetState (lower shutter) st;
              Cmd (default "" (_shutter_state_to_command st))
                  (default "" (_shutters c !! lower shutter));
              Sleep _SEND_COMMAND_DELAY].
      rewrite Hs, Hcmd. cbn [default]. by rewrite <- !app_assoc.
    + by rewrite Hp.
    + intros x. rewrite Hst. cbn [_shutter_state map].
      destruct (decide (x ∈ map lower rest)) as [Hin|Hnin].
      * rewrite !bool_decide_eq_true_2; [done|by constructor|done].
      * rewrite (bool_decide_eq_false_2 (x ∈ map lower rest)) by done.
        destruct (decide (x = lower shutter)) as [->|Hne].
        -- rewrite lookup_insert_eq.
           by rewrite bool_decide_eq_true_2 by constructor.
        -- rewrite lookup_insert_ne by done.
           rewrite bool_decide_eq_false_2; [done|]. by apply not_elem_of_cons.
Qed.

(** When every listed shutter is configured and takes the state as a
    command of its own (any state but HALF on a basic shutter, STOP on a
    fine-tunable one) and the actuator command can be started, a press run
    returns after dispatching to the shutters in list order: per shutter the
    state write, the command and the command spacing, nothing else.  Every
    listed shutter is left in the state, no other state and no percent is
    written. *)
Theorem run_dispatches_in_list_order a w :
  (forall command hw, channel command hw <> LaunchError) ->
  Forall (fun shutter =>
            is_Some (_shutters c !! lower shutter)
            /\ lower shutter ∈ _shutter_locks c
            /\ synchronous c (lower shutter) (sa_state a) = true) (sa_shutters a) ->
  exists w',
    ShutterAction_run c channel clock a false w = (Returned tt, w')
    /\ trace w' = (trace w ++ flat_map (dispatch_log c (sa_state a)) (sa_shutters a))%list
    /\ _shutter_state_percent w' = _shutter_state_percent w
    /\ forall x, get_current_state w' x
                 = if bool_decide (x ∈ map lower (sa_shutters a)) then sa_state a
                   else get_current_state w x.
Proof.
  intros Hch Hall.
  destruct (operate_each_dispatches (sa_state a) (sa_shutters a) Hch 0%nat w Hall)
    as (w' & Hrun & Htr & Hp & Hst).
  exists w'. repeat split; try done.
  intros x. unfold get_current_state. rewrite Hst. by destruct (bool_decide _).
Qed.

End Run.

(** ** Operating a loaded shutter *)

Lemma loaded_fine_tunable secs cfg sec :
  load_config secs = Returned cfg ->
  In sec secs ->
  fine_tunable cfg (alias_of sec) = truthy (opt_close sec).
Proof.
  intros Hload Hin. destruct (loaded_entry secs cfg sec Hload Hin) as (_ & Hh & Hd).
  unfold fine_tunable.
  destruct (truthy (opt_close sec)) eqn:Ht.
  - destruct Hd as (-> & -> & -> & [off Eo] & [op Ep]). rewrite Hh, Eo, Ep.
    by destruct (opt_close sec).
  - by destruct Hd as (-> & _).
Qed.

(** [operate] on a shutter of a loaded configuration, named by the title of
    its section in any letter case, returns [True] unless the state is HALF
    and the section gives no non-zero [close], where it returns [False]; the
    only exception it lets through is that of an actuator command that
    cannot be started, for a command it sends itself. *)
Theorem operate_on_loaded_shutter channel secs cfg sec raw st half now w :
  load_config secs = Returned cfg ->
  In sec secs ->
  lower raw = alias_of sec ->
  match fst (operate cfg channel raw st half now w) with
  | Returned b =>
      b = negb (match st with HALF => negb (truthy (opt_close sec)) | _ => false end)
  | Raised e =>
      e = OSError
      /\ synchronous cfg (lower raw) st = true
      /\ exists command hw,
           _shutter_state_to_command st = Some command
           /\ opt_name sec = Some hw
           /\ channel command hw = LaunchError
  | Timeout => False
  end.
Proof.
  intros Hload Hin Hraw.
  destruct (loaded_entry secs cfg sec Hload Hin) as (Hs & _).
  pose proof (loaded_fine_tunable secs cfg sec Hload Hin) as Hft.
  rewrite <- Hraw in Hs, Hft.
  destruct (_shutters cfg !! lower raw) as [hw|] eqn:Ehw.
  2:{ exfalso. apply in_split in Hin as (pre & post & ->).
      destruct (load_sections_app pre (sec :: post) _ _ Hload) as (c1 & _ & Hrest).
      cbn [load_sections] in Hrest.
      destruct (load_section c1 sec) as [c2| |] eqn:E; try discriminate.
      destruct (load_section_stores c1 sec c2 E) as (_ & name & Hn & _). congruence. }
  destruct (loaded_shutter_has_lock secs cfg _ hw Hload Ehw) as [Hlock _].
  rewrite (operate_enter cfg channel raw st half now hw w Ehw Hlock). cbv zeta.
  destruct (synchronous cfg (lower raw) st) eqn:Hsync.
  - destruct (synchronous_command cfg _ _ Hsync) as [cmd Hcmd].
    unfold bind at 1. cbn [set_state]. unfold bind at 1.
    rewrite (send_command_run cfg channel (lower raw) st cmd hw _
               (lower_idem raw) Ehw Hcmd).
    destruct (channel cmd hw) as [status|] eqn:Ech; cbn.
    + by destruct st.
    + split; [done|]. split; [done|]. exists cmd, hw. by rewrite <- Hs.
  - unfold synchronous in Hsync. rewrite Hft in *.
    destruct (truthy (opt_close sec)); destruct st; try discriminate; reflexivity.
Qed.

(** ** The further properties on the example installation *)

Lemma salon_percent_in_range p t : 0 <= p <= 100 -> percents_in_range (salon_at p t).
Proof.
  intros Hp shutter q. unfold salon_at. cbn [_shutter_state_percent].
  intros [_ <-]%lookup_singleton_Some. exact Hp.
Defined.

Lemma superseded_thread_only_sleeps_witness :
  let w := salon_at 10 8 in
  let w' := snd (run_thread cfg0 channel_up 5 "salon" (Some 12) 7 w) in
  _shutter_thread_tokens w' = _shutter_thread_tokens w
  /\ _shutter_state w' = _shutter_state w
  /\ _shutter_state_percent w' = _shutter_state_percent w
  /\ exists evs, trace w' = (trace w ++ evs)%list /\ Forall is_sleep evs.
Proof.
  apply (superseded_thread_only_sleeps cfg0 channel_up 5 "salon" (Some 12) 7 8 (salon_at 10 8)).
  - vm_compute. reflexivity.
  - lia.
Defined.

Lemma operate_supersedes_running_thread_witness :
  let w1 := snd (operate cfg0 channel_up "Salon" STOP None 1000 (salon_at 10 7)) in
  let w2 := snd (run_thread cfg0 channel_up 5 "salon" (Some 12) 7 w1) in
  _shutter_thread_tokens w1 !! "salon" <> Some 7
  /\ _shutter_thread_tokens w2 = _shutter_thread_tokens w1
  /\ _shutter_state w2 = _shutter_state w1
  /\ _shutter_state_percent w2 = _shutter_state_percent w1
  /\ exists evs, trace w2 = (trace w1 ++ evs)%list /\ Forall is_sleep evs.
Proof.
  apply (operate_supersedes_running_thread cfg0 channel_up "Salon" STOP None 1000 "hw1"
           5 (Some 12) 7 (salon_at 10 7)).
  - vm_compute. reflexivity.
  - holds_lock.
  - vm_compute. reflexivity.
Defined.

Lemma stored_percents_stay_in_range_witness :
  percents_in_range (snd (operate cfg0 channel_up "Salon" HALF (Some 250) 1000 (salon_at 10 7)))
  /\ percents_in_range (snd (run_thread cfg0 channel_up 100 "salon" (Some 250) 7 (salon_at 10 7)))
  /\ forall shutter,
       get_current_state_percent (salon_at 10 7) shutter
       = _shutter_state_percent (salon_at 10 7) !! shutter.
Proof.
  apply (stored_percents_stay_in_range cfg0 channel_up "Salon" HALF (Some 250) 1000 100
           "salon" (Some 250) 7 (salon_at 10 7)).
  apply salon_percent_in_range. lia.
Defined.

Lemma other_shutters_untouched_witness :
  let w := salon_at 10 7 in
  let w1 := snd (operate cfg0 channel_up "Cuisine" OPEN None 1000 w) in
  let w2 := snd (run_thread cfg0 channel_up 100 "salon" (Some 12) 7 w1) in
  (trace w1 = [SetState "cuisine" OPEN; Cmd "on" "hw2"; Sleep _SEND_COMMAND_DELAY]
   /\ _shutter_thread_tokens w1 !! "cuisine" = Some 1000
   /\ _shutter_thread_tokens w1 !! "salon" = _shutter_thread_tokens w !! "salon"
   /\ _shutter_state w1 !! "salon" = _shutter_state w !! "salon"
   /\ _shutter_state_percent w1 = _shutter_state_percent w)
  /\ (get_current_state_percent w1 "salon" = Some 10
      /\ get_current_state_percent w2 "salon" = Some 12
      /\ _shutter_thread_tokens w2 !! "cuisine" = Some 1000
      /\ _shutter_state w2 !! "cuisine" = Some OPEN
      /\ _shutter_state_percent w2 !! "cuisine" = None).
Proof.
  split.
  - destruct (other_shutters_untouched cfg0 channel_up "Cuisine" OPEN None 1000 100
                "salon" (Some 12) 7 "salon" (salon_at 10 7)) as (Hoperate & Hpercent & _).
    destruct Hoperate as (Htoken & Hstate); [discriminate|].
    split; [vm_compute; reflexivity|]. split; [vm_compute; reflexivity|].
    split; [exact Htoken|]. split; [exact Hstate|exact Hpercent].
  - destruct (other_shutters_untouched cfg0 channel_up "Cuisine" OPEN None 1000 100
                "salon" (Some 12) 7 "cuisine"
                (snd (operate cfg0 channel_up "Cuisine" OPEN None 1000 (salon_at 10 7))))
      as (_ & _ & Hthread).
    destruct Hthread as (Htoken & Hstate & Hpercent); [discriminate|].
    split; [vm_compute; reflexivity|]. split; [vm_compute; reflexivity|].
    split; [rewrite Htoken; vm_compute; reflexivity|].
    split; [rewrite Hstate; vm_compute; reflexivity|].
    rewrite Hpercent. vm_compute. reflexivity.
Defined.

Lemma thread_always_ends_witness :
  (100 <= 100)%nat
  /\ fst (run_thread cfg0 channel_up 100 "salon" (Some 0) 7 (salon_at 100 7)) <> Timeout.
Proof.
  split; [lia|].
  apply (thread_always_ends cfg0 channel_up 100 "salon" (Some 0) 7 (salon_at 100 7)). lia.
Defined.

Lemma operate_then_thread_reaches_target_witness :
  exists w1 desired k w2,
    operate cfg0 channel_up "Salon" HALF (Some 30) 1000 (salon_at 10 7) = (Returned true, w1)
    /\ trace w1 = [Spawn "salon" (Some desired) k]
    /\ desired = 30
    /\ run_thread cfg0 channel_up 100 "salon" (Some desired) k w1 = (Returned tt, w2)
    /\ get_current_state_percent w2 "salon" = Some 30.
Proof.
  destruct (operate_then_thread_reaches_target cfg0 channel_up "Salon" "hw1" 12 2 10
              HALF (Some 30) 1000 100 (salon_at 10 7))
    as (w1 & desired & k & w2 & Hop & Htrace & Hdesired & Hrun & Hpercent).
  - exact salon_calibrated.
  - vm_compute. reflexivity.
  - discriminate.
  - intros cmd. apply channel_up_launches.
  - lia.
  - injection Hdesired as ->.
    exists w1, 30, k, w2. repeat split; assumption.
Defined.

Lemma move_sleeps_travel_time_witness :
  exists w' evs,
    _move_to_state_percent cfg0 channel_up 5 "salon" 12 7 (salon_at 10 7) = (Returned tt, w')
    /\ trace w' = evs
    /\ (slept evs == inject_Z 2 * (12 / 99) + _START_MOVING_DELAY + _SEND_COMMAND_DELAY)%Q.
Proof.
  destruct (move_sleeps_travel_time cfg0 channel_up "salon" "hw1" 12 2 10 5 12 7 10
              (salon_at 10 7)) as (w' & evs & Hrun & Htrace & Hslept).
  - exact salon_calibrated.
  - intros cmd. apply channel_up_launches.
  - vm_compute. reflexivity.
  - vm_compute. reflexivity.
  - vm_compute. lia.
  - vm_compute. lia.
  - vm_compute. reflexivity.
  - exists w', evs. split; [exact Hrun|]. split; [exact Htrace|exact Hslept].
Defined.

Lemma loaded_aliases_distinct_and_named_witness :
  NoDup (map alias_of shutters_ini)
  /\ (forall sec, In sec shutters_ini ->
        is_Some (opt_name sec) /\ _shutters cfg0 !! alias_of sec = opt_name sec)
  /\ (forall sh hw, _shutters cfg0 !! sh = Some hw ->
        exists sec, In sec shutters_ini /\ alias_of sec = sh /\ opt_name sec = Some hw).
Proof.
  apply (loaded_aliases_distinct_and_named shutters_ini cfg0). vm_compute. reflexivity.
Defined.

Lemma loaded_fine_tunable_iff_close_witness :
  fine_tunable cfg0 "salon" = true
  /\ (true = true ->
      get_full_length_delay cfg0 "salon" CLOSE = Some (floor0 12)
      /\ get_closed_offset_delay cfg0 "salon" = Some (floor0 2)
      /\ get_full_length_delay cfg0 "salon" OPEN = Some (floor0 10)
      /\ is_Some (Some 2%Q) /\ is_Some (Some 10%Q)).
Proof.
  apply (loaded_fine_tunable_iff_close shutters_ini cfg0
           (IniSection "Salon" (Some "hw1") (Some 12%Q) (Some 2%Q) (Some 10%Q) None)).
  - vm_compute. reflexivity.
  - simpl. left. reflexivity.
Defined.

Lemma loaded_halfway_default_and_range_witness :
  exists h,
    get_halfway_percent cfg0 "cuisine" = Some h
    /\ 0 <= h <= 99
    /\ (@None Z = None -> h = 50)
    /\ (forall p, @None Z = Some p -> 0 <= p <= 99 -> h = p).
Proof.
  apply (loaded_halfway_default_and_range shutters_ini cfg0
           (IniSection "Cuisine" (Some "hw2") None None None None)).
  - vm_compute. reflexivity.
  - simpl. right. left. reflexivity.
Defined.

Lemma operate_on_loaded_shutter_witness :
  fst (operate cfg0 channel_up "CUISINE" HALF None 1000 fresh) = Returned false.
Proof.
  pose proof (operate_on_loaded_shutter channel_up shutters_ini cfg0
                (IniSection "Cuisine" (Some "hw2") None None None None)
                "CUISINE" HALF None 1000 fresh) as H.
  destruct (fst (operate cfg0 channel_up "CUISINE" HALF None 1000 fresh)) as [b|e|].
  - rewrite H; [reflexivity|vm_compute; reflexivity|simpl; right; left; reflexivity
                |reflexivity].
  - destruct H as (_ & Hsync & _); [vm_compute; reflexivity|simpl; right; left; reflexivity
                                    |reflexivity|].
    vm_compute in Hsync. discriminate.
  - destruct H; [vm_compute; reflexivity|simpl; right; left; reflexivity|reflexivity].
Defined.

Lemma str2action_round_trip_witness :
  str2action "Shutter:salon+cuisine:open/Stop"
  = Built (MkShutterAction ["salon"; "cuisine"] OPEN (Some STOP)).
Proof.
  apply (str2action_round_trip "Shutter" ["salon"; "cuisine"] "open" (Some "Stop") OPEN).
  - reflexivity.
  - discriminate.
  - repeat constructor.
  - reflexivity.
  - intros l [= <-]. exists STOP. reflexivity.
Defined.

Lemma str2action_accepts_documented_form_only_witness :
  exists type operation operation_long,
    "shutter:salon:half"
    = action_text type ["salon"] operation operation_long
    /\ lower type = "shutter"
    /\ ShutterState_of_name (upper operation) = Some HALF.
Proof.
  destruct (str2action_accepts_documented_form_only "shutter:salon:half"
              (MkShutterAction ["salon"] HALF None))
    as (type & operation & operation_long & Htext & Htype & _ & _ & Hop & _).
  - reflexivity.
  - reflexivity.
  - exists type, operation, operation_long. repeat split; assumption.
Defined.

Lemma str2action_attribute_error_iff_witness :
  str2action "Shutter" = Failed ActionAttributeError.
Proof.
  apply (str2action_attribute_error_iff "Shutter"). reflexivity.
Defined.

Lemma run_leaves_unlisted_shutters_witness :
  let a := MkShutterAction ["Cuisine"] OPEN None in
  let w := salon_at 10 7 in
  let w' := snd (ShutterAction_run cfg0 channel_up (fun call => 1000 + Z.of_nat call)
                   a false w) in
  _shutter_thread_tokens w' !! "salon" = _shutter_thread_tokens w !! "salon"
  /\ _shutter_state w' !! "salon" = _shutter_state w !! "salon"
  /\ _shutter_state_percent w' = _shutter_state_percent w.
Proof.
  apply (run_leaves_unlisted_shutters cfg0 channel_up (fun call => 1000 + Z.of_nat call)
           (MkShutterAction ["Cuisine"] OPEN None) false "salon" (salon_at 10 7)).
  simpl. intros H. apply list_elem_of_In in H. simpl in H. destruct H as [H|[]].
  discriminate.
Defined.

Lemma run_stops_at_unknown_shutter_witness :
  exists w1,
    ShutterAction_run cfg0 channel_up (fun call => 1000 + Z.of_nat call)
      (MkShutterAction ["cuisine"] OPEN None) false fresh = (Returned tt, w1)
    /\ ShutterAction_run cfg0 channel_up (fun call => 1000 + Z.of_nat call)
         (MkShutterAction ["cuisine"; "garage"; "salon"] OPEN None) false fresh
       = (Raised ValueError, w1).
Proof.
  eexists. split; [vm_compute; reflexivity|].
  apply (run_stops_at_unknown_shutter cfg0 channel_up (fun call => 1000 + Z.of_nat call)
           ["cuisine"] "garage" ["salon"] OPEN None false fresh).
  - vm_compute. reflexivity.
  - discriminate.
  - vm_compute. reflexivity.
Defined.

Lemma run_dispatches_in_list_order_witness :
  exists w',
    ShutterAction_run cfg0 channel_up (fun call => 1000 + Z.of_nat call)
      (MkShutterAction ["Cuisine"; "salon"] STOP None) false fresh = (Returned tt, w')
    /\ trace w'
       = [ SetState "cuisine" STOP; Cmd "pause" "hw2"; Sleep _SEND_COMMAND_DELAY;
           SetState "salon" STOP; Cmd "pause" "hw1"; Sleep _SEND_COMMAND_DELAY ].
Proof.
  destruct (run_dispatches_in_list_order cfg0 channel_up (fun call => 1000 + Z.of_nat call)
              (MkShutterAction ["Cuisine"; "salon"] STOP None) fresh)
    as (w' & Hrun & Htrace & _).
  - intros command hw. apply channel_up_launches.
  - repeat constructor; try (vm_compute; eauto; fail); holds_lock.
  - exists w'. split; [exact Hrun|]. rewrite Htrace. vm_compute. reflexivity.
Defined.

Lemma thread_writes_nothing_when_channel_fails_witness :
  let w := salon_at 10 7 in
  let w' := snd (run_thread cfg0 channel_missing 100 "salon" (Some 30) 7 w) in
  _shutter_thread_tokens w' = _shutter_thread_tokens w
  /\ _shutter_state w' = _shutter_state w
  /\ _shutter_state_percent w' = _shutter_state_percent w.
Proof.
  apply (thread_writes_nothing_when_channel_fails cfg0 channel_missing).
  intros command hw. reflexivity.
Defined.

Lemma third_call_in_a_millisecond_reuses_token_witness :
  let w1 := snd (operate cfg0 channel_up "Salon" OPEN None 1000 (salon_at 10 7)) in
  let w2 := snd (operate cfg0 channel_up "Salon" STOP None 1000 w1) in
  let w3 := snd (operate cfg0 channel_up "Salon" CLOSE None 1000 w2) in
  _shutter_thread_tokens w1 !! "salon" = Some 1000
  /\ _shutter_thread_tokens w2 !! "salon" = Some 999
  /\ _shutter_thread_tokens w3 !! "salon" = Some 1000.
Proof.
  apply (third_call_in_a_millisecond_reuses_token cfg0 channel_up "Salon" "hw1" 1000
           OPEN None STOP None CLOSE None (salon_at 10 7)).
  - vm_compute. reflexivity.
  - holds_lock.
  - vm_compute. discriminate.
Defined.
